(** * Concert finder: a shallow embedding of [main.py] and its specification

    The development follows the layout of the program:

    - [Py], [Text]  the built-ins and string methods the program relies on
                    ([max], [sorted], [str.strip], [str.lower], [str.split],
                    [str.replace]);
    - [Utils]       [Utils.clean_artist_name], [Utils.has_region_identifier],
                    [Utils.similarity_score];
    - [Matcher]     [SpotifyClient._find_best_match];
    - [Geo]         [Utils.calculate_distance];
    - [Spotify]     [SpotifyClient._get_artist_track] and [search_artist];
    - [Scraper]     [ConcertScraper._scrape_page], [_extract_event_data],
                    [_get_next_page_url], [_has_show_started] and
                    [_process_performers];
    - [Pipeline]    the lookup loop of [main] and the loops of
                    [SpotifyClient.create_playlist];
    - [Calendar]    a small date library on which the filters can be run.

    The properties of the specification follow, module by module.

    Conventions.  A Python [str] is the [string] of its UTF-8 bytes, read
    character by character where the program looks at characters: white
    space is the Unicode white space of [str.strip] and of the class [\s];
    [str.lower], which follows the Unicode character database, is a parameter
    of the definitions that call it.  Python floats that the program only
    compares (similarity scores, rounded distances) are rationals [Q], which
    leaves out the floats that are no numbers (nan, the infinities read from
    a text); the trigonometry of the haversine formula is carried out in
    [R].  [float('inf')] as an answer is the constructor [Unknown] of
    [distance].  What the program obtains from a library or from the network
    (difflib's ratio, the date parsers and the time-zone database, numpy's
    argsort, the HTTP answers) is a parameter of the definition that uses
    it. *)

From Stdlib Require Import List String Ascii Bool Arith ZArith QArith Lia.
From Stdlib Require Import Permutation Sorted.
From Stdlib Require Import Reals Qreals Lra.
Import ListNotations.

Set Implicit Arguments.

Local Close Scope R_scope.
Local Close Scope Q_scope.
Local Open Scope string_scope.
Local Open Scope list_scope.
Local Open Scope nat_scope.

(* ===================================================================== *)
(** ** Python built-ins on sequences *)
(* ===================================================================== *)

Module Py.

(** [max(l, key=key)]: the first element whose key is maximal, the loop
    replacing the running maximum only on a strictly greater key. *)
Section Max.
Variables (A K : Type) (key : A -> K) (gtb : K -> K -> bool).

Fixpoint max_from (best : A) (l : list A) : A :=
  match l with
  | [] => best
  | x :: t => if gtb (key x) (key best) then max_from x t else max_from best t
  end.

Definition max (l : list A) : option A :=
  match l with
  | [] => None
  | x :: t => Some (max_from x t)
  end.
End Max.

(** [x > y] on floats, here on rationals. *)
Definition Qgtb (x y : Q) : bool := negb (Qle_bool x y).

(** [sorted(l, key=key)]: the stable sort; insertion from the right keeps
    equal keys in their input order, as timsort does. *)
Section Sorted.
Variables (A K : Type) (key : A -> K) (leb : K -> K -> bool).

Fixpoint insert_sorted (x : A) (l : list A) : list A :=
  match l with
  | [] => [x]
  | y :: t => if leb (key x) (key y) then x :: y :: t else y :: insert_sorted x t
  end.

Definition sorted (l : list A) : list A := fold_right insert_sorted [] l.
End Sorted.

End Py.

(* ===================================================================== *)
(** ** Text: the string methods used by the program *)
(* ===================================================================== *)

Module Text.

Definition code (c : ascii) : nat := nat_of_ascii c.

Definition chars : string -> list ascii := list_ascii_of_string.
Definition text : list ascii -> string := string_of_list_ascii.

(** *** Characters

    A [str] is held as the bytes of its UTF-8 encoding (a lone surrogate
    encoded like any other code point), which keeps the equality and the
    order of Python's texts.  A character is the byte sequence of one code
    point: a byte that is no continuation byte [10xxxxxx], with the
    continuation bytes that follow it. *)
Definition char : Type := list ascii.

Definition is_continuation (b : ascii) : bool := (128 <=? code b) && (code b <=? 191).

Fixpoint group (l : list ascii) : list char :=
  match l with
  | [] => []
  | b :: t =>
      match group t with
      | (d :: ds) :: rest =>
          if is_continuation d then (b :: d :: ds) :: rest else [b] :: (d :: ds) :: rest
      | rest => [b] :: rest
      end
  end.

(** The characters of a text, and the text made of characters. *)
Definition characters (s : string) : list char := group (chars s).
Definition join (cs : list char) : string := text (List.concat cs).

(** White space as [str.isspace], [str.strip] and the class [\s] of [re]
    have it, the three on the same code points: U+0009..U+000D,
    U+001C..U+0020, U+0085, U+00A0 (bytes C2 85, C2 A0), U+1680 (E1 9A 80),
    U+2000..U+200A (E2 80 80..8A), U+2028, U+2029, U+202F (E2 80 A8, A9, AF),
    U+205F (E2 81 9F) and U+3000 (E3 80 80). *)
Definition is_space (c : char) : bool :=
  match map code c with
  | [n] => ((9 <=? n) && (n <=? 13)) || ((28 <=? n) && (n <=? 32))
  | [a; n] => (a =? 194) && ((n =? 133) || (n =? 160))
  | [a; b; n] =>
      ((a =? 225) && (b =? 154) && (n =? 128))
      || ((a =? 226) && (b =? 128)
          && (((128 <=? n) && (n <=? 138)) || (n =? 168) || (n =? 169) || (n =? 175)))
      || ((a =? 226) && (b =? 129) && (n =? 159))
      || ((a =? 227) && (b =? 128) && (n =? 128))
  | _ => false
  end.

(** The character class [[A-Z]]: the 26 ASCII capitals. *)
Definition is_upper (c : char) : bool :=
  match c with
  | [b] => (65 <=? code b) && (code b <=? 90)
  | _ => false
  end.

(** The character is the ASCII character [a]. *)
Definition is_char (a : ascii) (c : char) : bool :=
  match c with
  | [b] => Ascii.eqb b a
  | _ => false
  end.

Fixpoint lstrip_chars (l : list char) : list char :=
  match l with
  | [] => []
  | c :: t => if is_space c then lstrip_chars t else l
  end.

Definition rstrip_chars (l : list char) : list char := rev (lstrip_chars (rev l)).

(** [s.strip()] *)
Definition strip (s : string) : string := join (rstrip_chars (lstrip_chars (characters s))).

(** [s.lower()] on a text of ASCII characters, where it changes the 26
    capitals and nothing else.  On other texts [str.lower] follows the
    Unicode character database; the definitions that call it take it as a
    parameter, and this function is the instance on which the examples with
    ASCII names are run. *)
Definition lower_byte (b : ascii) : ascii :=
  if (65 <=? code b) && (code b <=? 90) then ascii_of_nat (code b + 32) else b.

Definition lower_ascii (s : string) : string := text (map lower_byte (chars s)).

(** [c in s] for a one-character ASCII [c]; an ASCII byte is never part of
    the encoding of another character. *)
Definition contains (c : ascii) (s : string) : bool :=
  existsb (Ascii.eqb c) (chars s).

(** [s.split(c)[0]]: what precedes the first [c], all of [s] without one. *)
Fixpoint before_chars (c : ascii) (l : list ascii) : list ascii :=
  match l with
  | [] => []
  | x :: t => if Ascii.eqb x c then [] else x :: before_chars c t
  end.

Definition split_head (c : ascii) (s : string) : string := text (before_chars c (chars s)).

(** [s.replace(c, r)] for a one-character ASCII [c]. *)
Definition replace (c : ascii) (r : string) (s : string) : string :=
  text (flat_map (fun x => if Ascii.eqb x c then chars r else [x]) (chars s)).

(** Truthiness of a [str]. *)
Definition nonempty (s : string) : bool := negb (String.eqb s "").

(** The tail of the pattern [\([A-Z]{2,3}\)$], read on the reversed text:
    a closing parenthesis, two or three capitals, an opening parenthesis.
    Returns what precedes the tag (still reversed). *)
Definition tag_suffix (r : list char) : option (list char) :=
  match r with
  | p :: a :: b :: c :: rest =>
      if is_char ")" p && is_upper a && is_upper b then
        if is_char "(" c then Some rest
        else
          match rest with
          | d :: rest' => if is_upper c && is_char "(" d then Some rest' else None
          | [] => None
          end
      else None
  | _ => None
  end.

End Text.

(* ===================================================================== *)
(** ** Utils: name cleaning and similarity *)
(* ===================================================================== *)

Module Utils.
Import Text.

(** [re.sub(r'\s*\([A-Z]{2,3}\)\s*$', '', name.strip())].  After [strip] the
    text has no trailing white space, so the pattern matches exactly when the
    text ends with a tag; the leftmost match then starts at the white space
    in front of the tag, which is removed with it. *)
Definition clean_artist_name (name : string) : string :=
  let s := characters (strip name) in
  match tag_suffix (rev s) with
  | Some before => join (rev (lstrip_chars before))
  | None => join s
  end.

(** [bool(re.search(r'\s*\([A-Z]{2,3}\)\s*$', name))]: a tag followed by
    white space only. *)
Definition has_region_identifier (name : string) : bool :=
  match tag_suffix (lstrip_chars (rev (characters name))) with
  | Some _ => true
  | None => false
  end.

(** [SequenceMatcher(None, a.lower(), b.lower()).ratio()], over [str.lower]
    and difflib's [ratio]. *)
Definition similarity_score (lower : string -> string) (ratio : string -> string -> Q)
           (a b : string) : Q :=
  ratio (lower a) (lower b).

End Utils.

(* ===================================================================== *)
(** ** SpotifyClient._find_best_match *)
(* ===================================================================== *)

Module Matcher.
Import Text Utils.

(** A catalog artist of the search answer: [artist['id']], [artist['name']],
    [artist['followers']['total']]. *)
Record artist : Type := Artist {
  artist_id : string;
  artist_name : string;
  followers_total : Z
}.

Section FindBestMatch.
(** [str.lower] and difflib's [SequenceMatcher(None, a, b).ratio()] *)
Variable lower : string -> string.
Variable ratio : string -> string -> Q.

Variables (original_name search_name : string) (has_region : bool).

(** The test that sends a candidate to [exact_matches]. *)
Definition is_exact (a : artist) : bool :=
  if has_region
  then String.eqb (lower (clean_artist_name (artist_name a))) (lower search_name)
  else String.eqb (lower (artist_name a)) (lower original_name).

(** The score [sim] computed in the other branch. *)
Definition sim_of (a : artist) : Q :=
  if has_region
  then similarity_score lower ratio search_name (clean_artist_name (artist_name a))
  else similarity_score lower ratio original_name (artist_name a).

(** The literal the score is compared with: [0.8] or [0.6]. *)
Definition threshold : Q := if has_region then (8 # 10)%Q else (6 # 10)%Q.

(** One iteration of [for artist in artists], on the pair
    [(exact_matches, approximate_matches)]. *)
Definition scan_step (acc : list artist * list (artist * Q)) (a : artist)
  : list artist * list (artist * Q) :=
  let spotify_name := artist_name a in
  if has_region then
    if String.eqb (lower (clean_artist_name spotify_name)) (lower search_name)
    then (fst acc ++ [a], snd acc)
    else
      let sim := similarity_score lower ratio search_name (clean_artist_name spotify_name) in
      if Py.Qgtb sim (8 # 10)%Q then (fst acc, snd acc ++ [(a, sim)]) else acc
  else
    if String.eqb (lower spotify_name) (lower original_name)
    then (fst acc ++ [a], snd acc)
    else
      let sim := similarity_score lower ratio original_name spotify_name in
      if Py.Qgtb sim (6 # 10)%Q then (fst acc, snd acc ++ [(a, sim)]) else acc.

Definition scan (artists : list artist) : list artist * list (artist * Q) :=
  fold_left scan_step artists ([], []).

Definition exact_matches (artists : list artist) : list artist := fst (scan artists).
Definition approximate_matches (artists : list artist) : list (artist * Q) :=
  snd (scan artists).

(** The returned triple [(chosen_artist, exact_match, similarity)]; [max]
    answers [None] on the empty list only, which is the test of the two
    [if]s. *)
Definition find_best_match (artists : list artist) : option artist * bool * Q :=
  let (exact, approximate) := scan artists in
  match Py.max followers_total Z.gtb exact with
  | Some best => (Some best, true, 1%Q)
  | None =>
      match Py.max (@snd artist Q) Py.Qgtb approximate with
      | Some best_match => (Some (fst best_match), false, snd best_match)
      | None => (None, false, 0%Q)
      end
  end.
End FindBestMatch.

End Matcher.

(* ===================================================================== *)
(** ** Utils.calculate_distance *)
(* ===================================================================== *)

Module Geo.
Import Text.

(** A distance in miles as the program stores it: a float rounded to two
    decimals, or [float('inf')]. *)
Inductive distance : Type :=
| Miles (q : Q)
| Unknown.

(** A coordinate as it reaches [calculate_distance]: [None] (a JSON null), a
    [str] (the default [''] of a missing key, or a quoted number) or a
    number. *)
Inductive value : Type :=
| VNone
| VStr (s : string)
| VNum (q : Q).

(** Python truthiness, as [all([...])] tests it. *)
Definition truthy (v : value) : bool :=
  match v with
  | VNone => false
  | VStr s => nonempty s
  | VNum q => negb (Qeq_bool q 0)
  end.

Definition radians (x : R) : R := (x * PI / 180)%R.

(** [round(x)] to the nearest integer, ties to the even one. *)
Definition round_half_even (x : R) : Z :=
  let n := Int_part x in
  let f := frac_part x in
  if Rlt_dec f (1 / 2) then n
  else if Rlt_dec (1 / 2) f then (n + 1)%Z
  else if Z.even n then n else (n + 1)%Z.

(** [round(x, 2)] *)
Definition round2 (x : R) : Q := (round_half_even (x * 100) # 100)%Q.

(** The body of the [try] once the four floats are there; [None] stands for
    the [ValueError] of [math.sqrt] and [math.asin] outside their domain. *)
Definition haversine (lat1 lon1 lat2 lon2 : R) : option R :=
  let lat1 := radians lat1 in
  let lon1 := radians lon1 in
  let lat2 := radians lat2 in
  let lon2 := radians lon2 in
  let dlat := (lat2 - lat1)%R in
  let dlon := (lon2 - lon1)%R in
  let a := (sin (dlat / 2) ^ 2 + cos lat1 * cos lat2 * sin (dlon / 2) ^ 2)%R in
  if Rle_dec 0 a then
    if Rle_dec (sqrt a) 1 then Some (2 * 3956 * asin (sqrt a))%R else None
  else None.

Section CalculateDistance.
(** [float(s)] on a [str]; [None] when it raises [ValueError]. *)
Variable parse_float : string -> option Q.

(** [float(v)]; [None] when it raises. *)
Definition to_float (v : value) : option R :=
  match v with
  | VNone => None
  | VStr s => option_map Q2R (parse_float s)
  | VNum q => Some (Q2R q)
  end.

Definition calculate_distance (lat1 lon1 lat2 lon2 : value) : distance :=
  if negb (forallb truthy [lat1; lon1; lat2; lon2]) then Unknown
  else
    match to_float lat1, to_float lon1, to_float lat2, to_float lon2 with
    | Some lat1, Some lon1, Some lat2, Some lon2 =>
        match haversine lat1 lon1 lat2 lon2 with
        | Some d => Miles (round2 d)
        | None => Unknown
        end
    | _, _, _, _ => Unknown
    end.
End CalculateDistance.

(** [Config.LAT], [Config.LON] *)
Definition LAT : value := VNum (42004414 # 1000000).
Definition LON : value := VNum (- 87671304 # 1000000).

End Geo.

(* ===================================================================== *)
(** ** SpotifyClient: artist lookup and playlist construction *)
(* ===================================================================== *)

Module Spotify.
Import Text Utils Matcher Geo.

(** [Config.SKIP_THRESHOLD] *)
Definition SKIP_THRESHOLD : Q := (70 # 100)%Q.

(** A track object; the program reads [track['uri']] only. *)
Record track : Type := Track { track_uri : string }.

(** What [requests.get(".../v1/search")] followed by [raise_for_status] and
    [json()] comes to. *)
Inductive search_response : Type :=
| RequestFailed (message : string)   (* an exception [e] with [str(e) = message] *)
| NoArtistsKey (body : string)       (* ['artists' not in response_data] *)
| Items (artists : list artist).     (* [response_data['artists']['items']] *)

(** The catalog service.  Every call but [search] answers [None] when the
    request raises. *)
Record api : Type := Api {
  search : string -> search_response;
  top_tracks : string -> option (list track);
  albums : string -> option (list string);
  album_tracks : string -> option (list string);
  track_by_id : string -> option track
}.

(** The dict returned by [search_artist], completed by [main] with [venue]
    and [distance_miles]; [None] is an absent key. *)
Record result : Type := Result {
  searched_artist : string;
  found_artist : option string;
  uri : option string;
  exact_match : option bool;
  similarity_score : option Q;
  had_region_identifier : option bool;
  error : option string;
  venue : option string;
  distance_miles : option distance
}.

(** ['error' in result] *)
Definition has_error (r : result) : bool :=
  match error r with Some _ => true | None => false end.

Definition error_result (name : string) (found : option string) (msg : string) : result :=
  Result name found None None None None (Some msg) None None.

Section Client.
Variable lower : string -> string.
Variable ratio : string -> string -> Q.
Variable service : api.

(** [_get_artist_track]: the top track, else the first track of the first
    album; the flag tells which path answered. *)
Definition get_artist_track (artist_id : string) : option track * bool :=
  match top_tracks service artist_id with
  | Some (t :: _) => (Some t, false)
  | _ =>
      match albums service artist_id with
      | Some (album_id :: _) =>
          match album_tracks service album_id with
          | Some (track_id :: _) =>
              match track_by_id service track_id with
              | Some t => (Some t, true)
              | None => (None, true)
              end
          | _ => (None, true)
          end
      | _ => (None, true)
      end
  end.

(** [search_artist], with [self.access_token] as an argument. *)
Definition search_artist (access_token : option string) (artist_name : string) : result :=
  match access_token with
  | None => error_result artist_name None "No access token"
  | Some token =>
      if negb (nonempty token) then error_result artist_name None "No access token"
      else
        let search_name := clean_artist_name artist_name in
        let has_region := has_region_identifier artist_name in
        match search service search_name with
        | RequestFailed e => error_result artist_name None (String.append "Search error: " e)
        | NoArtistsKey body => error_result artist_name None (String.append "API Error: " body)
        | Items [] => error_result artist_name None "No artist found"
        | Items artists =>
            match find_best_match lower ratio artist_name search_name has_region artists with
            | (None, _, _) => error_result artist_name None "No suitable artist found"
            | (Some chosen_artist, exact, similarity) =>
                match fst (get_artist_track (artist_id chosen_artist)) with
                | None =>
                    error_result artist_name (Some (Matcher.artist_name chosen_artist))
                                 "No tracks found"
                | Some t =>
                    Result artist_name (Some (Matcher.artist_name chosen_artist))
                           (Some (track_uri t)) (Some exact) (Some similarity)
                           (Some has_region) None None None
                end
            end
        end
  end.
End Client.

End Spotify.

(* ===================================================================== *)
(** ** ConcertScraper: extraction, show-time filter, deduplication *)
(* ===================================================================== *)

Module Scraper.
Import Text Geo.

(** [Config.FESTIVAL_PERFORMER_LIMIT] *)
Definition FESTIVAL_PERFORMER_LIMIT : nat := 6.

(** *** The date and time library

    [datetime.fromisoformat], [datetime.strptime] with the two formats of the
    program, [strftime('%H:%M')], [datetime.combine] and the two ways to
    reach the configured time zone.  A zoned datetime is identified with its
    instant (seconds on the UTC line), which is what [>] compares.  Parsers
    answer [None] when they raise. *)
Record datelib : Type := DateLib {
  datetime : Type;
  date : Type;
  time : Type;
  fromisoformat : string -> option datetime;
  strptime_date : string -> option date;      (* format ['%Y-%m-%d'] *)
  strptime_time : string -> option time;      (* format ['%H:%M'] *)
  strftime_HM : datetime -> string;
  tzinfo_is_None : datetime -> bool;
  combine : date -> time -> datetime;
  localize : datetime -> Z;                   (* [chicago_tz.localize(dt)] *)
  astimezone : datetime -> Z                  (* [dt.astimezone(chicago_tz)] *)
}.

(** *** Raw events of a structured-data block *)

(** An element of [event['performer']]: a dict, of which [.get('name', '')]
    is read, or anything else, of which [str(...)] is taken. *)
Inductive performer_entry : Type :=
| PerformerDict (name : option string)
| PerformerOther (str : string).

(** [event.get('performer', [])]: a list (the default when the key is
    absent), or a single value, truthy or not. *)
Inductive performer_field : Type :=
| PerformerList (l : list performer_entry)
| PerformerSingle (p : performer_entry)
| PerformerFalsy.

(** [location['geo']] when it is truthy; a missing coordinate is ['']. *)
Record geo : Type := GeoCoordinates {
  geo_latitude : value;
  geo_longitude : value
}.

(** [event.get('location', {})]; a missing name is ['']. *)
Record location : Type := Location {
  location_name : string;
  location_geo : option geo
}.

(** An event as [_extract_event_data] reads it when none of its reads
    raises: a text for [name] and [startDate], a dict for [location], whose
    [geo] is a dict or falsy; missing text fields are ['']. *)
Record event : Type := Event {
  name : string;
  startDate : string;
  event_location : location;
  performer : performer_field
}.

(** *** Elements of a block, as [json.loads] delivers them

    An element of a block is any JSON value.  The loop reads it with [.get],
    which only a dict has; [_extract_event_data] reads [location] and [geo]
    in the same way and tests ['T' in start_date].  Where such a read raises,
    the exception leaves the loop of the block.  The text leaves ([name], the
    venue name, the performer names) are texts, as in [event]. *)

(** [event.get('startDate', '')] *)
Inductive start_field : Type :=
| StartText (s : string)   (* a text; [''] without the key *)
| StartNumber              (* a number other than 0, or [true]:
                              ['T' in start_date] raises [TypeError] *)
| StartOther.              (* null, [false], 0 or a container: the test is
                              false or the parse fails inside the inner
                              [try]; no start time, and a date that no later
                              stage reads, held as [''] *)

(** [location.get('geo')] *)
Inductive geo_field : Type :=
| GeoFalsy                 (* no key, null, an empty dict, another falsy value *)
| GeoDict (g : geo)        (* a dict that is not empty *)
| GeoOther.                (* a truthy value that is no dict:
                              [geo.get] raises [AttributeError] *)

(** [event.get('location', {})] *)
Inductive location_field : Type :=
| LocationDict (venue_name : string) (g : geo_field)   (* a dict; [{}] without the key *)
| LocationOther.           (* null or another value that is no dict:
                              [location.get] raises [AttributeError] *)

(** A dict among the elements. *)
Record json_event : Type := JsonEvent {
  json_name : string;
  json_startDate : start_field;
  json_location : location_field;
  json_performer : performer_field
}.

Inductive element : Type :=
| Dict (e : json_event)
| NotDict.                 (* null, a text, a number, a list:
                              [event.get] raises [AttributeError] *)

(** The text of a [<script type="application/ld+json">] element once through
    [json.loads]: an exception, one value, or an array of values. *)
Inductive json_block : Type :=
| Unparsable
| Object (e : element)
| Array (l : list element).

(** A fetched page: its blocks and the [href] of its [a.next_page] link. *)
Record page : Type := Page {
  blocks : list json_block;
  next_page : option string
}.

(** The dict built per performer: the fields of [_extract_event_data] and
    ['performer_name']. *)
Record performer_record : Type := PerformerRecord {
  venue : string;
  event_name : string;
  event_date : string;
  event_start_time : string;
  latitude : value;
  longitude : value;
  distance_miles : distance;
  performer_name : string
}.

(** A row of [unique_performers]. *)
Record unique_performer : Type := UniquePerformer {
  unique_name : string;
  unique_venue : string;
  unique_distance : distance
}.

(** The order of the sort key ['distance_sort']: numbers by [<=], infinity
    after every number. *)
Definition distance_leb (d1 d2 : distance) : bool :=
  match d1, d2 with
  | Miles a, Miles b => Qle_bool a b
  | _, Unknown => true
  | Unknown, Miles _ => false
  end.

(** [df.sort_values('distance_sort', na_position='last')].  pandas sorts with
    numpy's default [argsort], an unstable quicksort: the result is an ordered
    rearrangement of the rows and nothing more is known about ties. *)
Record sorter : Type := Sorter {
  sort_values : list performer_record -> list performer_record;
  sort_values_perm : forall l, Permutation (sort_values l) l;
  sort_values_sorted :
    forall l, StronglySorted (fun r1 r2 => distance_leb (distance_miles r1) (distance_miles r2) = true)
                             (sort_values l)
}.

Section Scrape.
Variable parse_float : string -> option Q.
Variable lib : datelib.
(** [self.lat], [self.lon] *)
Variables (self_lat self_lon : value).

(** [{**self._extract_event_data(event), 'performer_name': name}], on an
    event whose fields were read ([read_event] below has the reads that can
    raise): the event's fields, shared by the records of all its
    performers. *)
Definition extract_event_data (ev : event) (performer_name : string) : performer_record :=
  let start_date := startDate ev in
  let start_time :=
    if nonempty start_date && contains "T" start_date then
      match fromisoformat lib (replace "Z" "+00:00" start_date) with
      | Some dt => strftime_HM lib dt
      | None => ""
      end
    else "" in
  let loc := event_location ev in
  let venue_name := location_name loc in
  let (lat, lon) :=
    match location_geo loc with
    | Some g => (geo_latitude g, geo_longitude g)
    | None => (VStr "", VStr "")
    end in
  let distance := calculate_distance parse_float self_lat self_lon lat lon in
  PerformerRecord venue_name (name ev) start_date start_time lat lon distance
                  performer_name.

(** The reads of [_extract_event_data] that can raise, lines 453, 461 and
    464 to 467; [None] is the exception, which leaves the function before
    anything is returned.  On what is read, [extract_event_data] above is
    the rest of the function. *)
Definition read_event (e : json_event) : option event :=
  match json_startDate e with
  | StartNumber => None
  | start_date =>
      match json_location e with
      | LocationOther => None
      | LocationDict venue_name g =>
          let start_date :=
            match start_date with StartText s => s | _ => "" end in
          match g with
          | GeoOther => None
          | GeoDict g =>
              Some (Event (json_name e) start_date (Location venue_name (Some g))
                          (json_performer e))
          | GeoFalsy =>
              Some (Event (json_name e) start_date (Location venue_name None)
                          (json_performer e))
          end
      end
  end.

(** [performer_list] after the [isinstance] normalisation. *)
Definition performer_list (e : json_event) : list performer_entry :=
  match json_performer e with
  | PerformerList l => l
  | PerformerSingle p => [p]
  | PerformerFalsy => []
  end.

Definition entry_name (p : performer_entry) : string :=
  match p with
  | PerformerDict (Some n) => n
  | PerformerDict None => ""
  | PerformerOther s => s
  end.

(** [len(performer_list) > Config.FESTIVAL_PERFORMER_LIMIT] *)
Definition is_festival (e : json_event) : bool :=
  FESTIVAL_PERFORMER_LIMIT <? List.length (performer_list e).

(** The accumulators of [_scrape_page]: [performers], [event_count],
    [festival_count]. *)
Definition page_state : Type := (list performer_record * nat * nat)%type.

(** How the body of [for event in events] ends: normally, or with an
    exception; the accumulators keep what was done before it. *)
Inductive outcome : Type :=
| Completed (st : page_state)
| Raised (st : page_state).

(** One iteration of [for event in events]. *)
Definition event_step (st : page_state) (el : element) : outcome :=
  let '(performers, event_count, festival_count) := st in
  let event_count := event_count + 1 in
  match el with
  | NotDict => Raised (performers, event_count, festival_count)
  | Dict e =>
      if is_festival e then Completed (performers, event_count, festival_count + 1)
      else
        match read_event e with
        | None => Raised (performers, event_count, festival_count)
        | Some ev =>
            Completed
              (performers ++ map (extract_event_data ev) (map entry_name (performer_list e)),
               event_count, festival_count)
        end
  end.

(** [for event in events] inside the [try]: the first exception ends the
    loop. *)
Fixpoint events_loop (events : list element) (st : page_state) : page_state :=
  match events with
  | [] => st
  | el :: rest =>
      match event_step st el with
      | Completed st' => events_loop rest st'
      | Raised st' => st'
      end
  end.

(** One iteration of [for script in soup.find_all(...)]: the [except]
    clause goes on to the next block with the accumulators as they are. *)
Definition block_step (st : page_state) (b : json_block) : page_state :=
  match b with
  | Unparsable => st
  | Object e => events_loop [e] st
  | Array l => events_loop l st
  end.

(** [_scrape_page], on the answer of [requests.get] ([None] when the request
    raises): [(performers, event_count, festival_count, soup)]. *)
Definition scrape_page (fetched : option page)
  : list performer_record * nat * nat * option page :=
  match fetched with
  | None => ([], 0, 0, None)
  | Some p => (fold_left block_step (blocks p) ([], 0, 0), Some p)
  end.

(** [_get_next_page_url] *)
Definition get_next_page_url (soup : option page) : option string :=
  match soup with
  | None => None
  | Some p =>
      match next_page p with
      | Some href => Some (String.append "https://www.songkick.com" href)
      | None => None
      end
  end.
End Scrape.

Section Process.
Variable lib : datelib.
Variable numpy : sorter.

(** The separate date and time-of-day pair:
    [localize(combine(strptime(date_str.split('T')[0], '%Y-%m-%d').date(),
                      strptime(time_str, '%H:%M').time()))]. *)
Definition localized_pair (event_date_str event_time_str : string) : option Z :=
  match strptime_date lib (split_head "T" event_date_str) with
  | None => None
  | Some event_date =>
      match strptime_time lib event_time_str with
      | None => None
      | Some event_time => Some (localize lib (combine lib event_date event_time))
      end
  end.

(** [event_datetime] as computed inside the outer [try]; [None] when an
    exception reaches the outer [except]. *)
Definition event_datetime (row : performer_record) : option Z :=
  let event_date_str := event_date row in
  let event_time_str := event_start_time row in
  if contains "T" event_date_str then
    match fromisoformat lib (replace "Z" "+00:00" event_date_str) with
    | Some dt => Some (if tzinfo_is_None lib dt then localize lib dt else astimezone lib dt)
    | None => localized_pair event_date_str event_time_str
    end
  else localized_pair event_date_str event_time_str.

(** [_has_show_started] *)
Definition has_show_started (row : performer_record) (current_time : Z) : bool :=
  if negb (nonempty (event_start_time row)) then false
  else
    match event_datetime row with
    | Some t => (current_time >? t)%Z
    | None => false
    end.

(** The keys of [groupby('performer_name')], which sorts them: the distinct
    names in increasing order. *)
Fixpoint insert_key (k : string) (keys : list string) : list string :=
  match keys with
  | [] => [k]
  | x :: t =>
      match String.compare k x with
      | Lt => k :: keys
      | Eq => keys
      | Gt => x :: insert_key k t
      end
  end.

Definition group_keys (names : list string) : list string :=
  fold_right insert_key [] names.

(** [.agg({'venue': 'first', 'distance_miles': 'first'})] on one group: the
    values of the first row of [df] bearing the name. *)
Definition agg_first (df : list performer_record) (k : string) : list unique_performer :=
  match find (fun r => String.eqb (performer_name r) k) df with
  | Some r => [UniquePerformer k (venue r) (distance_miles r)]
  | None => []
  end.

Definition groupby_first (df : list performer_record) : list unique_performer :=
  flat_map (agg_first df) (group_keys (map performer_name df)).

(** [_process_performers].  [current_time] is [datetime.now(chicago_tz)];
    [snapshot_written] tells whether [df.to_csv] returned, the [except]
    clause answering [[]] otherwise. *)
Definition process_performers (performers : list performer_record)
           (current_time : Z) (snapshot_written : bool) : list unique_performer :=
  match performers with
  | [] => []
  | _ :: _ =>
      let df := filter (fun r => negb (String.eqb (venue r) "")) performers in
      let df := filter (fun r => negb (has_show_started r current_time)) df in
      let df := sort_values numpy df in
      let unique_performers := groupby_first df in
      if snapshot_written then unique_performers else []
  end.
End Process.

End Scraper.

(* ===================================================================== *)
(** ** The lookup loop of [main] and [SpotifyClient.create_playlist] *)
(* ===================================================================== *)

Module Pipeline.
Import Text Geo Matcher Spotify Scraper.

Section Main.
Variable lower : string -> string.
Variable ratio : string -> string -> Q.
Variable service : api.
Variable access_token : option string.

(** The body of [for i, artist in enumerate(performer_names, 1)]. *)
Definition lookup (performers_data : list unique_performer) (artist : string) : result :=
  let result := search_artist lower ratio service access_token artist in
  let perf_data := find (fun p => String.eqb (unique_name p) artist) performers_data in
  let venue := match perf_data with Some p => unique_venue p | None => "Unknown" end in
  let distance := match perf_data with Some p => unique_distance p | None => Unknown end in
  Result (searched_artist result) (found_artist result) (uri result)
         (exact_match result) (Spotify.similarity_score result)
         (had_region_identifier result) (error result)
         (Some venue) (Some distance).

(** [results] of [main]. *)
Definition lookup_all (performers_data : list unique_performer) : list result :=
  let performer_names := map unique_name performers_data in
  map (lookup performers_data) performer_names.
End Main.

(** [errors = sum(1 for r in results if 'error' in r)] *)
Definition errors (results : list result) : nat :=
  List.length (filter has_error results).

(** [stats] *)
Record stats : Type := Stats {
  exact : nat;
  fuzzy : nat;
  skipped : nat
}.

(** [get_distance], the sort key of [create_playlist]. *)
Definition get_distance (r : result) : distance :=
  match Spotify.distance_miles r with
  | Some d => d
  | None => Unknown
  end.

(** [results_sorted = sorted(results, key=get_distance)] *)
Definition results_sorted (results : list result) : list result :=
  Py.sorted get_distance distance_leb results.

(** A line of the listing [UPCOMING SHOWS]: artist, venue, distance. *)
Definition shown_line (r : result) (artist : string) : string * string * option distance :=
  (artist, match Spotify.venue r with Some v => v | None => "Unknown Venue" end,
   Spotify.distance_miles r).

(** The first loop over [results_sorted]; [None] is a [KeyError]. *)
Fixpoint upcoming_shows (rs : list result) : option (list (string * string * option distance)) :=
  match rs with
  | [] => Some []
  | r :: rest =>
      if has_error r then upcoming_shows rest
      else
        match Spotify.similarity_score r with
        | None => None
        | Some similarity =>
            if negb (Qle_bool SKIP_THRESHOLD similarity) then upcoming_shows rest
            else
              match found_artist r with
              | None => None
              | Some artist => option_map (cons (shown_line r artist)) (upcoming_shows rest)
              end
        end
  end.

(** The second loop: the results listed under [FUZZY MATCH DETAILS]. *)
Fixpoint fuzzy_details (rs : list result) : option (list result) :=
  match rs with
  | [] => Some []
  | r :: rest =>
      if has_error r then fuzzy_details rest
      else
        match Spotify.similarity_score r with
        | None => None
        | Some similarity =>
            if negb (Qle_bool SKIP_THRESHOLD similarity) then fuzzy_details rest
            else
              match exact_match r with
              | None => None
              | Some true => fuzzy_details rest
              | Some false =>
                  match found_artist r with
                  | None => None
                  | Some _ => option_map (cons r) (fuzzy_details rest)
                  end
              end
        end
  end.

(** One iteration of the third loop, on [(approved_uris, stats)]. *)
Definition approve_step (st : list string * stats) (r : result) : option (list string * stats) :=
  let (approved_uris, s) := st in
  if has_error r then Some st
  else
    match Spotify.similarity_score r with
    | None => None
    | Some similarity =>
        if Qle_bool SKIP_THRESHOLD similarity then
          match uri r with
          | None => None
          | Some u =>
              match exact_match r with
              | None => None
              | Some true => Some (approved_uris ++ [u], Stats (exact s + 1) (fuzzy s) (skipped s))
              | Some false => Some (approved_uris ++ [u], Stats (exact s) (fuzzy s + 1) (skipped s))
              end
          end
        else Some (approved_uris, Stats (exact s) (fuzzy s) (skipped s + 1))
    end.

Fixpoint approve (rs : list result) (st : list string * stats) : option (list string * stats) :=
  match rs with
  | [] => Some st
  | r :: rest =>
      match approve_step st r with
      | Some st' => approve rest st'
      | None => None
      end
  end.

(** What [create_playlist] hands over: the two listings, the URIs sent to
    [_add_tracks_to_playlist] and the counters. *)
Record playlist : Type := Playlist {
  shown : list (string * string * option distance);
  details : list result;
  approved_uris : list string;
  counters : stats
}.

(** [create_playlist] from [results_sorted] on: what is listed and handed
    over when the three loops end.  [None] is an exception ([KeyError] on a
    result without error reason that lacks a key) reaching the outer
    [except]: no URI is added then; the lines that the first loop printed
    before the exception are not kept in this answer.  The results that
    [main] builds have all their keys. *)
Definition create_playlist (results : list result) : option playlist :=
  let sorted := results_sorted results in
  match upcoming_shows sorted with
  | None => None
  | Some lines =>
      match fuzzy_details sorted with
      | None => None
      | Some fuzzies =>
          match approve sorted ([], Stats 0 0 0) with
          | None => None
          | Some (uris, s) => Some (Playlist lines fuzzies uris s)
          end
      end
  end.

End Pipeline.

(* ===================================================================== *)
(** ** A reference date library

    A small instance of [datelib] on which the filter can be run: ISO texts
    of the shape [YYYY-MM-DD], [YYYY-MM-DDTHH:MM[:SS]] with an optional
    [+HH:MM] or [-HH:MM] offset, the proleptic Gregorian calendar, and a
    zone fixed at UTC-6 (Chicago outside daylight saving time). *)
(* ===================================================================== *)

Module Calendar.
Import Text.

Record civil : Type := Civil {
  year : Z; month : Z; day : Z;
  hour : Z; minute : Z; second : Z;
  utcoffset : option Z            (* seconds east of UTC; [None] when naive *)
}.

Definition digit_of (c : ascii) : option Z :=
  if (48 <=? code c) && (code c <=? 57) then Some (Z.of_nat (code c - 48)) else None.

(** The value of a non-empty run of decimal digits. *)
Fixpoint number_from (acc : Z) (l : list ascii) : option Z :=
  match l with
  | [] => Some acc
  | c :: t =>
      match digit_of c with
      | Some d => number_from (10 * acc + d) t
      | None => None
      end
  end.

Definition number (l : list ascii) : option Z :=
  match l with
  | [] => None
  | _ :: _ => number_from 0 l
  end.

(** The fields of a text between occurrences of [sep]. *)
Fixpoint fields (sep : ascii) (l : list ascii) : list (list ascii) :=
  match l with
  | [] => [[]]
  | c :: t =>
      if Ascii.eqb c sep then [] :: fields sep t
      else
        match fields sep t with
        | f :: fs => (c :: f) :: fs
        | [] => [[c]]
        end
  end.

Definition is_leap (y : Z) : bool :=
  ((y mod 4 =? 0) && negb (y mod 100 =? 0) || (y mod 400 =? 0))%Z.

Definition days_in_month (y m : Z) : Z :=
  if (m =? 2)%Z then (if is_leap y then 29 else 28)%Z
  else if ((m =? 4) || (m =? 6) || (m =? 9) || (m =? 11))%Z then 30%Z
  else 31%Z.

Definition valid_date (y m d : Z) : bool :=
  ((1 <=? y) && (y <=? 9999) && (1 <=? m) && (m <=? 12) && (1 <=? d)
   && (d <=? days_in_month y m))%Z.

Definition valid_time (h mi s : Z) : bool :=
  ((h <? 24) && (mi <? 60) && (s <? 60))%Z.

(** Days from 1970-01-01 to the given civil date. *)
Definition days_from_civil (y m d : Z) : Z :=
  let y' := (if m <=? 2 then y - 1 else y)%Z in
  let era := (y' / 400)%Z in
  let yoe := (y' - era * 400)%Z in
  let mp := ((m + 9) mod 12)%Z in
  let doy := ((153 * mp + 2) / 5 + d - 1)%Z in
  let doe := (yoe * 365 + yoe / 4 - yoe / 100 + doy)%Z in
  (era * 146097 + doe - 719468)%Z.

(** The wall clock read as seconds, without regard to any zone. *)
Definition wall_seconds (c : civil) : Z :=
  (days_from_civil (year c) (month c) (day c) * 86400
   + hour c * 3600 + minute c * 60 + second c)%Z.

Definition width (n : nat) (l : list ascii) : bool := List.length l =? n.

(** [strptime(s, '%Y-%m-%d')]: four digits, then month and day on one or
    two digits. *)
Definition parse_date (l : list ascii) : option (Z * Z * Z) :=
  match fields "-" l with
  | [fy; fm; fd] =>
      match number fy, number fm, number fd with
      | Some y, Some m, Some d =>
          if width 4 fy && (List.length fm <=? 2) && (List.length fd <=? 2)
             && valid_date y m d
          then Some (y, m, d) else None
      | _, _, _ => None
      end
  | _ => None
  end.

(** [strptime(s, '%H:%M')] *)
Definition parse_time (l : list ascii) : option (Z * Z) :=
  match fields ":" l with
  | [fh; fm] =>
      match number fh, number fm with
      | Some h, Some mi =>
          if (List.length fh <=? 2) && (List.length fm <=? 2) && valid_time h mi 0
          then Some (h, mi) else None
      | _, _ => None
      end
  | _ => None
  end.

(** The clock part [HH:MM] or [HH:MM:SS], two digits each. *)
Definition parse_clock (l : list ascii) : option (Z * Z * Z) :=
  match fields ":" l with
  | [fh; fm] =>
      match number fh, number fm with
      | Some h, Some mi =>
          if width 2 fh && width 2 fm && valid_time h mi 0 then Some (h, mi, 0%Z) else None
      | _, _ => None
      end
  | [fh; fm; fs] =>
      match number fh, number fm, number fs with
      | Some h, Some mi, Some s =>
          if width 2 fh && width 2 fm && width 2 fs && valid_time h mi s
          then Some (h, mi, s) else None
      | _, _, _ => None
      end
  | _ => None
  end.

(** The offset [HH:MM] after its sign, in seconds. *)
Definition parse_offset (l : list ascii) : option Z :=
  match fields ":" l with
  | [fh; fm] =>
      match number fh, number fm with
      | Some h, Some mi =>
          if width 2 fh && width 2 fm && valid_time h mi 0
          then Some (h * 3600 + mi * 60)%Z else None
      | _, _ => None
      end
  | _ => None
  end.

(** Clock and offset of what follows the separator. *)
Definition parse_clock_offset (l : list ascii) : option (Z * Z * Z * option Z) :=
  if existsb (Ascii.eqb "+") l then
    match parse_clock (before_chars "+" l),
          parse_offset (skipn (S (List.length (before_chars "+" l))) l) with
    | Some c, Some o => Some (c, Some o)
    | _, _ => None
    end
  else if existsb (Ascii.eqb "-") l then
    match parse_clock (before_chars "-" l),
          parse_offset (skipn (S (List.length (before_chars "-" l))) l) with
    | Some c, Some o => Some (c, Some (- o)%Z)
    | _, _ => None
    end
  else
    match parse_clock l with
    | Some c => Some (c, None)
    | None => None
    end.

Definition fromisoformat (s : string) : option civil :=
  let l := chars s in
  match parse_date (firstn 10 l) with
  | Some (y, m, d) =>
      if negb (width 10 (firstn 10 l)) then None
      else
        match skipn 10 l with
        | [] => Some (Civil y m d 0 0 0 None)
        | _ :: rest =>
            match parse_clock_offset rest with
            | Some (h, mi, sec, off) => Some (Civil y m d h mi sec off)
            | None => None
            end
        end
  | None => None
  end.

Definition digit_char (n : Z) : ascii := ascii_of_nat (48 + Z.to_nat n).

Definition pad2 (n : Z) : string :=
  String (digit_char (n / 10)) (String (digit_char (n mod 10)) EmptyString).

(** The fixed zone: UTC-6. *)
Definition zone_offset : Z := (- 6 * 3600)%Z.

Definition reference : Scraper.datelib :=
  @Scraper.DateLib civil (Z * Z * Z) (Z * Z)
    fromisoformat
    (fun s => parse_date (chars s))
    (fun s => parse_time (chars s))
    (fun dt => String.append (pad2 (hour dt)) (String.append ":" (pad2 (minute dt))))
    (fun dt => match utcoffset dt with None => true | Some _ => false end)
    (fun d t => let '(y, m, dd) := d in let '(h, mi) := t in Civil y m dd h mi 0 None)
    (fun dt => (wall_seconds dt - zone_offset)%Z)
    (fun dt => (wall_seconds dt - match utcoffset dt with Some o => o | None => 0 end)%Z).

End Calendar.

(* ===================================================================== *)
(** * Properties *)
(* ===================================================================== *)

(** ** [max] and [sorted] *)

Module PyFacts.

Lemma Qgtb_true (x y : Q) : Py.Qgtb x y = true <-> (y < x)%Q.
Proof.
  unfold Py.Qgtb. rewrite negb_true_iff, <- not_true_iff_false, Qle_bool_iff.
  split; [apply Qnot_le_lt | apply Qlt_not_le].
Qed.

Lemma Qgtb_false (x y : Q) : Py.Qgtb x y = false <-> (x <= y)%Q.
Proof. unfold Py.Qgtb. now rewrite negb_false_iff, Qle_bool_iff. Qed.

Section MaxSpec.
Variables (A K : Type) (key : A -> K) (gtb : K -> K -> bool).
Variable le : K -> K -> Prop.
Hypothesis le_refl : forall k, le k k.
Hypothesis le_trans : forall a b c, le a b -> le b c -> le a c.
Hypothesis gtb_true : forall a b, gtb a b = true -> le b a.
Hypothesis gtb_false : forall a b, gtb a b = false -> le a b.

Lemma max_from_spec (l : list A) :
  forall best,
    let m := Py.max_from key gtb best l in
    In m (best :: l) /\ forall y, In y (best :: l) -> le (key y) (key m).
Proof.
  induction l as [|x t IH]; intros best; cbn.
  - split; [now left | intros y [<- | []]; apply le_refl].
  - destruct (gtb (key x) (key best)) eqn:E.
    + destruct (IH x) as [Hin Hmax]. split.
      * right. exact Hin.
      * intros y [<- | Hy].
        -- eapply le_trans; [apply gtb_true, E | apply Hmax; now left].
        -- apply Hmax. exact Hy.
    + destruct (IH best) as [Hin Hmax]. split.
      * destruct Hin as [H | H]; [now left | right; now right].
      * intros y [<- | [<- | Hy]].
        -- apply Hmax. now left.
        -- eapply le_trans; [apply gtb_false, E | apply Hmax; now left].
        -- apply Hmax. now right.
Qed.

Lemma max_spec (l : list A) (m : A) :
  Py.max key gtb l = Some m ->
  In m l /\ forall y, In y l -> le (key y) (key m).
Proof.
  destruct l as [|x t]; cbn; [discriminate|].
  intros [= <-]. apply max_from_spec.
Qed.

Lemma max_none (l : list A) : Py.max key gtb l = None <-> l = [].
Proof. destruct l; cbn; split; congruence. Qed.
End MaxSpec.

Section SortedSpec.
Variables (A K : Type) (key : A -> K) (leb : K -> K -> bool).
Hypothesis leb_total : forall a b, leb a b = false -> leb b a = true.
Hypothesis leb_trans : forall a b c, leb a b = true -> leb b c = true -> leb a c = true.

Let ord (x y : A) : Prop := leb (key x) (key y) = true.

Lemma insert_sorted_perm (x : A) (l : list A) :
  Permutation (Py.insert_sorted key leb x l) (x :: l).
Proof.
  induction l as [|y t IH]; cbn; [reflexivity|].
  destruct (leb (key x) (key y)); [reflexivity|].
  rewrite IH. apply perm_swap.
Qed.

Lemma sorted_perm (l : list A) : Permutation (Py.sorted key leb l) l.
Proof.
  induction l as [|x t IH]; cbn; [reflexivity|].
  rewrite insert_sorted_perm. now constructor.
Qed.

Lemma insert_sorted_sorted (x : A) (l : list A) :
  StronglySorted ord l -> StronglySorted ord (Py.insert_sorted key leb x l).
Proof.
  induction 1 as [|y t Ht IH Hy]; cbn.
  - constructor; constructor.
  - destruct (leb (key x) (key y)) eqn:E.
    + constructor; [now constructor|].
      constructor; [exact E|].
      rewrite Forall_forall in *. intros z Hz.
      eapply leb_trans; [exact E | apply Hy, Hz].
    + constructor; [exact IH|].
      rewrite Forall_forall in *. intros z Hz.
      apply (Permutation_in _ (insert_sorted_perm x t)) in Hz.
      destruct Hz as [<- | Hz]; [apply leb_total, E | apply Hy, Hz].
Qed.

Lemma sorted_sorted (l : list A) : StronglySorted ord (Py.sorted key leb l).
Proof.
  induction l as [|x t IH]; cbn; [constructor | now apply insert_sorted_sorted].
Qed.
End SortedSpec.

End PyFacts.

(** ** The two-tier matching algorithm *)

Module MatcherFacts.
Import Text Utils Matcher.

Section Scan.
Variable lower : string -> string.
Variable ratio : string -> string -> Q.
Variables (original_name search_name : string) (has_region : bool).

Let exact_of := is_exact lower original_name search_name has_region.
Let score := sim_of lower ratio original_name search_name has_region.

(** What one candidate adds to [approximate_matches]. *)
Definition accepted (a : artist) : list (artist * Q) :=
  if exact_of a then []
  else if Py.Qgtb (score a) (threshold has_region) then [(a, score a)] else [].

Lemma scan_step_eq (acc : list artist * list (artist * Q)) (a : artist) :
  scan_step lower ratio original_name search_name has_region acc a
  = (fst acc ++ (if exact_of a then [a] else []), snd acc ++ accepted a).
Proof.
  unfold scan_step, accepted, exact_of, score, is_exact, sim_of, threshold.
  destruct acc as [ex ap]; cbn [fst snd].
  destruct has_region.
  - destruct (String.eqb _ _); [now rewrite app_nil_r|].
    destruct (Py.Qgtb _ _); now rewrite ?app_nil_r.
  - destruct (String.eqb _ _); [now rewrite app_nil_r|].
    destruct (Py.Qgtb _ _); now rewrite ?app_nil_r.
Qed.

Lemma fold_scan (l : list artist) :
  forall acc,
    fold_left (scan_step lower ratio original_name search_name has_region) l acc
    = (fst acc ++ filter exact_of l, snd acc ++ flat_map accepted l).
Proof.
  induction l as [|a t IH]; intros [ex ap]; cbn [fold_left filter flat_map fst snd].
  - now rewrite !app_nil_r.
  - rewrite IH, scan_step_eq. cbn [fst snd].
    destruct (exact_of a); now rewrite <- !app_assoc.
Qed.

Lemma scan_eq (l : list artist) :
  scan lower ratio original_name search_name has_region l
  = (filter exact_of l, flat_map accepted l).
Proof. unfold scan. now rewrite fold_scan. Qed.

Lemma in_exact_matches (l : list artist) (a : artist) :
  In a (exact_matches lower ratio original_name search_name has_region l)
  <-> In a l /\ exact_of a = true.
Proof. unfold exact_matches. rewrite scan_eq. cbn. apply filter_In. Qed.

Lemma in_approximate_matches (l : list artist) (a : artist) (s : Q) :
  In (a, s) (approximate_matches lower ratio original_name search_name has_region l)
  <-> In a l /\ exact_of a = false /\ s = score a
      /\ (threshold has_region < s)%Q.
Proof.
  unfold approximate_matches. rewrite scan_eq. cbn [snd].
  rewrite in_flat_map. unfold accepted. split.
  - intros (x & Hx & Hin).
    destruct (exact_of x) eqn:Ex; [destruct Hin|].
    destruct (Py.Qgtb _ _) eqn:Eg; [|destruct Hin].
    destruct Hin as [[= <- <-] | []].
    apply PyFacts.Qgtb_true in Eg. auto.
  - intros (Hin & Ex & -> & Hlt).
    exists a. split; [exact Hin|].
    rewrite Ex. apply PyFacts.Qgtb_true in Hlt. fold score. rewrite Hlt. now left.
Qed.
End Scan.

(** C1.  For every performer name and candidate list: a candidate is in the
    exact set exactly when the case-insensitive comparison of its tier holds
    (cleaned names for a tagged name, raw names otherwise); it is in the
    approximate set, with its score, exactly when it is not exact and its
    score is strictly above the tier threshold, 0.8 for a tagged name and 0.6
    otherwise, so that a score equal to the threshold is left out; when the
    exact set is not empty the answer is an exact match with the most
    followers, flagged exact with score 1.0, whatever the approximate set
    holds; with no exact match the approximate candidate of highest score is
    answered with that score; with both sets empty the answer is
    [(None, False, 0.0)]. *)
Theorem find_best_match_two_tier :
  forall (lower : string -> string) (ratio : string -> string -> Q)
         (original_name search_name : string)
         (has_region : bool) (artists : list artist),
    let exact := exact_matches lower ratio original_name search_name has_region artists in
    let approximate := approximate_matches lower ratio original_name search_name has_region artists in
    let thr := (if has_region then 8 # 10 else 6 # 10)%Q in
    let score := fun a =>
      if has_region
      then similarity_score lower ratio search_name (clean_artist_name (artist_name a))
      else similarity_score lower ratio original_name (artist_name a) in
    let is_exact := fun a =>
      if has_region
      then String.eqb (lower (clean_artist_name (artist_name a))) (lower search_name)
      else String.eqb (lower (artist_name a)) (lower original_name) in
    let answer := find_best_match lower ratio original_name search_name has_region artists in
    (forall a, In a exact <-> In a artists /\ is_exact a = true)
    /\ (forall a s, In (a, s) approximate
                    <-> In a artists /\ is_exact a = false /\ s = score a /\ (thr < s)%Q)
    /\ (forall a, (score a == thr)%Q -> ~ In (a, score a) approximate)
    /\ (exact <> [] ->
        exists best,
          answer = (Some best, true, 1%Q) /\ In best exact
          /\ forall a, In a exact -> (followers_total a <= followers_total best)%Z)
    /\ (exact = [] -> approximate <> [] ->
        exists best s,
          answer = (Some best, false, s) /\ In (best, s) approximate
          /\ forall a s', In (a, s') approximate -> (s' <= s)%Q)
    /\ (exact = [] -> approximate = [] -> answer = (None, false, 0%Q)).
Proof.
  intros lower ratio original_name search_name has_region artists.
  cbv zeta.
  split; [|split; [|split; [|split; [|split]]]].
  - intros a. apply in_exact_matches.
  - intros a s. apply in_approximate_matches.
  - intros a Heq Hin.
    apply in_approximate_matches in Hin. destruct Hin as (_ & _ & _ & Hlt).
    unfold sim_of, threshold in Hlt.
    rewrite Heq in Hlt. revert Hlt. apply Qlt_irrefl.
  - intros Hne. unfold find_best_match, exact_matches in *.
    destruct (scan _ _ _ _ _) as [ex ap]; cbn [fst] in Hne.
    destruct (Py.max followers_total Z.gtb ex) as [best|] eqn:Em.
    + exists best. split; [reflexivity|].
      apply (PyFacts.max_spec followers_total Z.gtb Z.le) in Em; try assumption.
      * intros; lia.
      * intros; lia.
      * intros a b H. apply Z.gtb_lt in H. lia.
      * intros a b H. rewrite Z.gtb_ltb, Z.ltb_ge in H. exact H.
    + apply PyFacts.max_none in Em. contradiction.
  - intros He Hne. unfold find_best_match, exact_matches, approximate_matches in *.
    destruct (scan _ _ _ _ _) as [ex ap]; cbn [fst snd] in *. subst ex. cbn.
    destruct (Py.max (@snd artist Q) Py.Qgtb ap) as [[best s]|] eqn:Em.
    + exists best, s. split; [reflexivity|].
      apply (PyFacts.max_spec (@snd artist Q) Py.Qgtb Qle) in Em.
      * destruct Em as [Hin Hmax]. split; [exact Hin|].
        intros a s' H. apply (Hmax (a, s') H).
      * apply Qle_refl.
      * apply Qle_trans.
      * intros a b H. apply PyFacts.Qgtb_true in H. now apply Qlt_le_weak.
      * intros a b H. now apply PyFacts.Qgtb_false.
    + apply PyFacts.max_none in Em. contradiction.
  - intros He Ha. unfold find_best_match, exact_matches, approximate_matches in *.
    destruct (scan _ _ _ _ _) as [ex ap]; cbn [fst snd] in *. now subst.
Qed.

(** The tagged name of the specification, with scores given by a table: the
    cleaned exact match wins over a candidate of higher stated score; a score
    of exactly 0.8 is left out and 0.82 is accepted. *)
Definition table_ratio (a b : string) : Q :=
  if String.eqb b "artist band" then (99 # 100)%Q
  else if String.eqb b "artis" then (8 # 10)%Q
  else if String.eqb b "artists" then (82 # 100)%Q
  else 0%Q.

Example tagged_exact_beats_fuzzy :
  find_best_match lower_ascii table_ratio "Artist (UK)" "Artist" true
    [Artist "1" "Artist Band" 900; Artist "2" "Artist" 10; Artist "3" "ARTIST (US)" 50]
  = (Some (Artist "3" "ARTIST (US)" 50), true, 1%Q).
Proof. reflexivity. Qed.

Example threshold_is_exclusive :
  approximate_matches lower_ascii table_ratio "Artist (UK)" "Artist" true
    [Artist "1" "Artis" 5; Artist "2" "Artists" 7]
  = [(Artist "2" "Artists" 7, (82 # 100)%Q)].
Proof. reflexivity. Qed.

(** A candidate whose name is the performer's name but for the case of its
    letters, ASCII or not ("BEYONCE" with an acute accent on the last letter,
    say): whatever [str.lower] is, as soon as it sends the two names to the
    same text the candidate is an exact match. *)
Example exact_match_whatever_the_alphabet :
  forall (lower : string -> string) (ratio : string -> string -> Q)
         (performer candidate : string) (followers : Z),
    lower candidate = lower performer ->
    find_best_match lower ratio performer performer false [Artist "1" candidate followers]
    = (Some (Artist "1" candidate followers), true, 1%Q).
Proof.
  intros lower ratio performer candidate followers H.
  unfold find_best_match, scan. cbn. now rewrite H, String.eqb_refl.
Qed.

End MatcherFacts.

(** ** The distance calculation *)

Module GeoFacts.
Import Text Geo.

Lemma sin_half_diff_sqr (x y : R) :
  (sin ((y - x) / 2) ^ 2 = sin ((x - y) / 2) ^ 2)%R.
Proof.
  replace ((y - x) / 2)%R with (- ((x - y) / 2))%R by lra.
  rewrite sin_neg. ring.
Qed.

(** The haversine formula does not depend on the order of the two points. *)
Lemma haversine_sym (lat1 lon1 lat2 lon2 : R) :
  haversine lat1 lon1 lat2 lon2 = haversine lat2 lon2 lat1 lon1.
Proof.
  unfold haversine. cbv zeta.
  rewrite (sin_half_diff_sqr (radians lat1) (radians lat2)).
  rewrite (sin_half_diff_sqr (radians lon1) (radians lon2)).
  rewrite (Rmult_comm (cos (radians lat1)) (cos (radians lat2))).
  reflexivity.
Qed.

Lemma truthy_all_sym (a b c d : value) :
  forallb truthy [a; b; c; d] = forallb truthy [c; d; a; b].
Proof. cbn. destruct (truthy a), (truthy b), (truthy c), (truthy d); reflexivity. Qed.

(** [distance(A, B) = distance(B, A)], the unknown answer included. *)
Lemma calculate_distance_sym (parse_float : string -> option Q) (a b c d : value) :
  calculate_distance parse_float a b c d = calculate_distance parse_float c d a b.
Proof.
  unfold calculate_distance. rewrite (truthy_all_sym a b c d).
  destruct (negb _); [reflexivity|].
  destruct (to_float parse_float a), (to_float parse_float b),
           (to_float parse_float c), (to_float parse_float d); try reflexivity.
  now rewrite haversine_sym.
Qed.

(** A missing coordinate ([None] or ['']) gives the unknown distance. *)
Lemma calculate_distance_missing (parse_float : string -> option Q) (a b c d : value) :
  In VNone [a; b; c; d] \/ In (VStr "") [a; b; c; d] ->
  calculate_distance parse_float a b c d = Unknown.
Proof.
  intros H. unfold calculate_distance.
  assert (E : forallb truthy [a; b; c; d] = false).
  { apply not_true_iff_false. intros Hall. rewrite forallb_forall in Hall.
    destruct H as [H | H]; apply Hall in H; discriminate. }
  now rewrite E.
Qed.

(** A coordinate that [float] rejects gives the unknown distance. *)
Lemma calculate_distance_not_numeric (parse_float : string -> option Q) (a b c d : value) :
  (exists v, In v [a; b; c; d] /\ to_float parse_float v = None) ->
  calculate_distance parse_float a b c d = Unknown.
Proof.
  intros (v & Hin & Hv). unfold calculate_distance.
  destruct (negb _); [reflexivity|].
  destruct Hin as [<- | [<- | [<- | [<- | []]]]]; rewrite Hv;
    repeat match goal with |- context [match ?x with _ => _ end] => destruct x end;
    reflexivity.
Qed.

(** C7.  A venue on the equator, seen from the configured origin: the four
    coordinates are present and numeric, and the answer is the unknown
    distance, the truth test of [all([...])] taking the number zero for a
    missing value. *)
Theorem calculate_distance_zero_latitude :
  forall parse_float : string -> option Q,
    calculate_distance parse_float LAT LON (VNum 0) (VNum (- 78 # 1)) = Unknown
    /\ (forall v, In v [LAT; LON; VNum 0; VNum (- 78 # 1)] ->
                  v <> VNone /\ v <> VStr "" /\ to_float parse_float v <> None).
Proof.
  intros parse_float. split; [reflexivity|].
  intros v [<- | [<- | [<- | [<- | []]]]]; repeat split; discriminate.
Qed.

End GeoFacts.

(** ** Orders: distances and names *)

Module OrderFacts.
Import Geo Scraper.

Lemma distance_leb_refl (d : distance) : distance_leb d d = true.
Proof. destruct d; cbn; [apply Qle_bool_iff, Qle_refl | reflexivity]. Qed.

Lemma distance_leb_total (a b : distance) :
  distance_leb a b = false -> distance_leb b a = true.
Proof.
  destruct a as [x|], b as [y|]; cbn; try congruence.
  intros H. apply Qle_bool_iff, Qlt_le_weak, Qnot_le_lt.
  intros Hle. apply Qle_bool_iff in Hle. congruence.
Qed.

Lemma distance_leb_trans (a b c : distance) :
  distance_leb a b = true -> distance_leb b c = true -> distance_leb a c = true.
Proof.
  destruct a as [x|], b as [y|], c as [z|]; cbn; try congruence.
  rewrite !Qle_bool_iff. apply Qle_trans.
Qed.

(** Every number comes before infinity, and infinity before no number. *)
Lemma unknown_is_last (q : Q) :
  distance_leb (Miles q) Unknown = true /\ distance_leb Unknown (Miles q) = false.
Proof. split; reflexivity. Qed.

(** A sort that meets the interface: the stable one. *)
Definition stable_sorter : sorter :=
  {| sort_values := Py.sorted distance_miles distance_leb;
     sort_values_perm := PyFacts.sorted_perm distance_miles distance_leb;
     sort_values_sorted :=
       PyFacts.sorted_sorted distance_miles distance_leb
                             distance_leb_total distance_leb_trans |}.

(** The order of [str]: by code points, a prefix first. *)
Definition name_lt (a b : string) : Prop := String.compare a b = Lt.

Lemma ascii_compare_trans (a b c : ascii) :
  Ascii.compare a b = Lt -> Ascii.compare b c = Lt -> Ascii.compare a c = Lt.
Proof.
  unfold Ascii.compare. rewrite !N.compare_lt_iff. apply N.lt_trans.
Qed.

Lemma ascii_compare_refl (a : ascii) : Ascii.compare a a = Eq.
Proof. unfold Ascii.compare. apply N.compare_refl. Qed.

Lemma name_lt_trans (a b c : string) : name_lt a b -> name_lt b c -> name_lt a c.
Proof.
  unfold name_lt. revert b c.
  induction a as [|x a IH]; intros [|y b] [|z c]; cbn; try congruence.
  destruct (Ascii.compare x y) eqn:Exy; try discriminate.
  - apply Ascii.compare_eq_iff in Exy. subst y.
    destruct (Ascii.compare x z); try congruence. apply IH.
  - intros _. destruct (Ascii.compare y z) eqn:Eyz; try discriminate.
    + apply Ascii.compare_eq_iff in Eyz. subst z. now rewrite Exy.
    + now rewrite (ascii_compare_trans _ _ _ Exy Eyz).
Qed.

Lemma name_lt_irrefl (a : string) : ~ name_lt a a.
Proof.
  unfold name_lt. induction a as [|x a IH]; cbn; [discriminate|].
  now rewrite ascii_compare_refl.
Qed.

Lemma name_gt_lt (a b : string) : String.compare a b = Gt -> name_lt b a.
Proof.
  unfold name_lt. intros H. rewrite String.compare_antisym, H. reflexivity.
Qed.

(** Names in strictly increasing order are pairwise distinct. *)
Lemma increasing_NoDup (l : list string) : StronglySorted name_lt l -> NoDup l.
Proof.
  induction 1 as [|x t Ht IH Hx]; constructor; [|exact IH].
  intros Hin. rewrite Forall_forall in Hx.
  exact (name_lt_irrefl (Hx _ Hin)).
Qed.

End OrderFacts.

(** ** Extraction of performers from a page *)

Module ScrapeFacts.
Import Text Geo Scraper.

(** The element stops the loop of its block: it is no dict, or it is no
    festival and one of its fields cannot be read. *)
Definition raises (el : element) : bool :=
  match el with
  | NotDict => true
  | Dict e =>
      negb (is_festival e)
      && match read_event e with Some _ => false | None => true end
  end.

(** The elements the loop gets to: those up to the first that raises, that
    one included. *)
Fixpoint reached (els : list element) : list element :=
  match els with
  | [] => []
  | el :: rest => el :: (if raises el then [] else reached rest)
  end.

(** The elements of a block, in order. *)
Definition block_events (b : json_block) : list element :=
  match b with
  | Unparsable => []
  | Object e => [e]
  | Array l => l
  end.

Definition block_reached (b : json_block) : list element := reached (block_events b).

Definition festival_element (el : element) : bool :=
  match el with
  | Dict e => is_festival e
  | NotDict => false
  end.

Definition festivals (els : list element) : nat :=
  List.length (filter festival_element els).

(** The JSON object of an event all of whose fields have the expected
    shape. *)
Definition shaped (ev : event) : element :=
  Dict (JsonEvent (name ev) (StartText (startDate ev))
                  (LocationDict (location_name (event_location ev))
                                (match location_geo (event_location ev) with
                                 | Some g => GeoDict g
                                 | None => GeoFalsy
                                 end))
                  (performer ev)).

Lemma read_shaped (ev : event) :
  match shaped ev with
  | Dict e => read_event e = Some ev
  | NotDict => False
  end.
Proof.
  destruct ev as [n s [v [g|]] p]; reflexivity.
Qed.

Lemma reached_length (els : list element) : List.length (reached els) <= List.length els.
Proof.
  induction els as [|el t IH]; cbn [reached List.length]; [lia|].
  destruct (raises el); cbn [List.length]; lia.
Qed.

Lemma reached_all (els : list element) :
  Forall (fun el => raises el = false) els -> reached els = els.
Proof.
  induction 1 as [|el t Hel _ IH]; cbn [reached]; [reflexivity|].
  now rewrite Hel, IH.
Qed.

Lemma reached_until (before after : list element) (el : element) :
  Forall (fun x => raises x = false) before -> raises el = true ->
  reached (before ++ el :: after) = before ++ [el].
Proof.
  intros Hb Hel. induction Hb as [|x t Hx _ IH]; cbn [app reached].
  - now rewrite Hel.
  - now rewrite Hx, IH.
Qed.

Lemma raises_spec (el : element) :
  raises el = true
  <-> el = NotDict \/ exists e, el = Dict e /\ is_festival e = false /\ read_event e = None.
Proof.
  destruct el as [e|]; cbn [raises].
  - rewrite andb_true_iff, negb_true_iff. split.
    + intros [Hf Hr]. right. exists e. destruct (read_event e); [discriminate | auto].
    + intros [H | (e' & He & Hf & Hr)]; [discriminate|].
      injection He as <-. now rewrite Hf, Hr.
  - split; [now left | reflexivity].
Qed.

Lemma raises_no_festival (el : element) : raises el = true -> festival_element el = false.
Proof.
  destruct el as [e|]; cbn [raises festival_element]; [|reflexivity].
  destruct (is_festival e); cbn [negb andb]; [discriminate | reflexivity].
Qed.

Section Page.
Variable parse_float : string -> option Q.
Variable lib : datelib.
Variables (self_lat self_lon : value).

Let extract := extract_event_data parse_float lib self_lat self_lon.
Let step := event_step parse_float lib self_lat self_lon.
Let loop := events_loop parse_float lib self_lat self_lon.
Let bstep := block_step parse_float lib self_lat self_lon.

(** The records an element contributes. *)
Definition contribution (el : element) : list performer_record :=
  match el with
  | NotDict => []
  | Dict e =>
      if is_festival e then []
      else
        match read_event e with
        | Some ev => map (extract ev) (map entry_name (performer_list e))
        | None => []
        end
  end.

Lemma raises_no_record (el : element) : raises el = true -> contribution el = [].
Proof.
  destruct el as [e|]; cbn [raises contribution]; [|reflexivity].
  destruct (is_festival e); [reflexivity|]. now destruct (read_event e).
Qed.

Lemma event_step_eq (st : page_state) (el : element) :
  step st el
  = (if raises el then Raised else Completed)
      (fst (fst st) ++ contribution el, snd (fst st) + 1,
       snd st + (if festival_element el then 1 else 0)).
Proof.
  destruct st as [[ps ec] fc]. unfold step, event_step, contribution, raises, extract.
  destruct el as [e|]; cbn [fst snd festival_element].
  - destruct (is_festival e); cbn [negb andb].
    + now rewrite app_nil_r.
    + destruct (read_event e); now rewrite ?app_nil_r, Nat.add_0_r.
  - now rewrite app_nil_r, Nat.add_0_r.
Qed.

Lemma events_loop_eq (els : list element) :
  forall st,
    loop els st
    = (fst (fst st) ++ flat_map contribution (reached els),
       snd (fst st) + List.length (reached els),
       snd st + festivals (reached els)).
Proof.
  unfold festivals.
  induction els as [|el t IH]; intros [[ps ec] fc]; cbn [fst snd].
  - cbn. now rewrite app_nil_r, !Nat.add_0_r.
  - unfold loop. cbn [events_loop reached]. fold step. rewrite event_step_eq.
    cbn [fst snd]. destruct (raises el).
    + cbn [flat_map filter List.length]. rewrite app_nil_r.
      destruct (festival_element el); cbn [List.length]; repeat f_equal; lia.
    + fold loop. rewrite IH. cbn [fst snd flat_map filter List.length].
      rewrite <- app_assoc.
      destruct (festival_element el); cbn [List.length];
        apply f_equal2; [apply f_equal2; [reflexivity|]| | apply f_equal2; [reflexivity|]|];
        lia.
Qed.

Lemma block_step_eq (st : page_state) (b : json_block) :
  bstep st b
  = (fst (fst st) ++ flat_map contribution (block_reached b),
     snd (fst st) + List.length (block_reached b),
     snd st + festivals (block_reached b)).
Proof.
  unfold bstep, block_step, block_reached. destruct b as [|e|l]; cbn [block_events].
  - destruct st as [[ps ec] fc]. cbn. now rewrite app_nil_r, !Nat.add_0_r.
  - apply events_loop_eq.
  - apply events_loop_eq.
Qed.

Lemma fold_block_step (bs : list json_block) :
  forall st,
    fold_left bstep bs st
    = (fst (fst st) ++ flat_map contribution (flat_map block_reached bs),
       snd (fst st) + List.length (flat_map block_reached bs),
       snd st + festivals (flat_map block_reached bs)).
Proof.
  unfold festivals.
  induction bs as [|b t IH]; intros [[ps ec] fc]; cbn [fold_left flat_map fst snd].
  - cbn. now rewrite app_nil_r, !Nat.add_0_r.
  - rewrite IH, block_step_eq. cbn [fst snd]. unfold festivals.
    rewrite !flat_map_app, filter_app, !length_app, <- app_assoc.
    f_equal; [f_equal|]; lia.
Qed.

(** What [_scrape_page] answers for a fetched page. *)
Lemma scrape_page_eq (p : page) :
  scrape_page parse_float lib self_lat self_lon (Some p)
  = (flat_map contribution (flat_map block_reached (blocks p)),
     List.length (flat_map block_reached (blocks p)),
     festivals (flat_map block_reached (blocks p)),
     Some p).
Proof.
  unfold scrape_page. fold bstep. now rewrite fold_block_step.
Qed.
End Page.

(** C5, as the program has it.  With the default limit of 6: an element of a
    block is a festival exactly when it is a dict whose performer field is a
    list of 7 entries or more; a festival that the loop reaches adds no
    record and is counted as event and as festival, whatever its other
    fields are; an element that is no festival and whose fields can be read
    adds one record per listed performer, in order, bearing the listed name
    and the event's name, venue and date; an element that is no dict, or that
    is no festival and has a start date, location or geo field that cannot be
    read, adds no record, is counted as an event and ends the loop of its
    block; and the performers extracted from a page are the records of the
    elements that are reached, are no festivals and can be read. *)
Theorem festival_events_are_excluded :
  forall (parse_float : string -> option Q) (lib : datelib) (self_lat self_lon : value),
    let step := event_step parse_float lib self_lat self_lon in
    let extract := extract_event_data parse_float lib self_lat self_lon in
    let listed := fun e =>
      match json_performer e with
      | PerformerList l => l
      | PerformerSingle p => [p]
      | PerformerFalsy => []
      end in
    let name_of := fun p =>
      match p with
      | PerformerDict (Some n) => n
      | PerformerDict None => ""
      | PerformerOther s => s
      end in
    let records := fun e ev => map (fun p => extract ev (name_of p)) (listed e) in
    (forall e, is_festival e = true
               <-> exists l, json_performer e = PerformerList l /\ 7 <= List.length l)
    /\ (forall e, is_festival e = false <-> List.length (listed e) <= 6)
    /\ (forall e performers event_count festival_count,
           is_festival e = true ->
           step (performers, event_count, festival_count) (Dict e)
           = Completed (performers, event_count + 1, festival_count + 1))
    /\ (forall e, read_event e = None
                  <-> json_startDate e = StartNumber \/ json_location e = LocationOther
                      \/ exists venue_name, json_location e = LocationDict venue_name GeoOther)
    /\ (forall e ev performers event_count festival_count,
           is_festival e = false -> read_event e = Some ev ->
           step (performers, event_count, festival_count) (Dict e)
           = Completed (performers ++ records e ev, event_count + 1, festival_count)
           /\ map performer_name (records e ev) = map name_of (listed e)
           /\ Forall (fun r => event_name r = json_name e
                               /\ (exists g, json_location e = LocationDict (venue r) g)
                               /\ (forall s, json_startDate e = StartText s -> event_date r = s))
                     (records e ev))
    /\ (forall e performers event_count festival_count,
           is_festival e = false -> read_event e = None ->
           step (performers, event_count, festival_count) (Dict e)
           = Raised (performers, event_count + 1, festival_count))
    /\ (forall performers event_count festival_count,
           step (performers, event_count, festival_count) NotDict
           = Raised (performers, event_count + 1, festival_count))
    /\ (forall p,
           fst (fst (fst (scrape_page parse_float lib self_lat self_lon (Some p))))
           = flat_map
               (fun el =>
                  match el with
                  | NotDict => []
                  | Dict e =>
                      if is_festival e then []
                      else match read_event e with
                           | Some ev => records e ev
                           | None => []
                           end
                  end)
               (flat_map block_reached (blocks p))).
Proof.
  intros parse_float lib self_lat self_lon. cbv zeta.
  assert (Hfest : forall e, is_festival e = false
                            <-> List.length
                                  match json_performer e with
                                  | PerformerList l => l
                                  | PerformerSingle p => [p]
                                  | PerformerFalsy => []
                                  end <= 6).
  { intros e. unfold is_festival, FESTIVAL_PERFORMER_LIMIT, performer_list.
    now rewrite Nat.ltb_ge. }
  split; [|split; [|split; [|split; [|split; [|split; [|split]]]]]].
  - intros e. unfold is_festival, FESTIVAL_PERFORMER_LIMIT, performer_list.
    rewrite Nat.ltb_lt. destruct (json_performer e) as [l|p|]; cbn [List.length].
    + split; [intros H; exists l; split; [reflexivity | lia]|].
      intros (l' & [= <-] & H). lia.
    + split; [lia|]. now intros (l' & [=] & _).
    + split; [lia|]. now intros (l' & [=] & _).
  - exact Hfest.
  - intros e ps ec fc H. unfold event_step. now rewrite H.
  - intros e. unfold read_event.
    destruct (json_startDate e), (json_location e) as [v [|g|]|]; split;
      try discriminate; try (intros _; tauto); try (intros _; right; right; now exists v);
      intros [H | [H | (v' & H)]]; discriminate.
  - intros e ev ps ec fc Hf Hr.
    assert (Erec : map (extract_event_data parse_float lib self_lat self_lon ev)
                       (map entry_name (performer_list e))
                   = map (fun p => extract_event_data parse_float lib self_lat self_lon ev
                                     match p with
                                     | PerformerDict (Some n) => n
                                     | PerformerDict None => ""
                                     | PerformerOther s => s
                                     end)
                         match json_performer e with
                         | PerformerList l => l
                         | PerformerSingle p => [p]
                         | PerformerFalsy => []
                         end).
    { rewrite map_map. reflexivity. }
    split; [|split].
    + unfold event_step. now rewrite Hf, Hr, Erec.
    + rewrite map_map. apply map_ext. intros p. unfold extract_event_data.
      destruct (location_geo (event_location ev)); reflexivity.
    + apply Forall_forall. intros r Hr'.
      apply in_map_iff in Hr'. destruct Hr' as (p & <- & _).
      unfold read_event in Hr.
      destruct (json_startDate e) as [s| |] eqn:Es; try discriminate;
        destruct (json_location e) as [v [|g|]|] eqn:El; try discriminate;
        injection Hr as <-; unfold extract_event_data; cbn;
        (split; [reflexivity|]; split; [eexists; reflexivity|]);
        intros s' Hs'; congruence.
  - intros e ps ec fc Hf Hr. unfold event_step. now rewrite Hf, Hr.
  - reflexivity.
  - intros p. rewrite scrape_page_eq. cbn [fst].
    apply flat_map_ext. intros [e|]; [|reflexivity]. cbn [contribution].
    destruct (is_festival e); [reflexivity|].
    destruct (read_event e); [|reflexivity].
    now rewrite map_map.
Qed.

Example seven_performers_is_a_festival :
  let ev n := JsonEvent "Show" (StartText "") (LocationDict "Hall" GeoFalsy)
                        (PerformerList (repeat (PerformerDict (Some "Act")) n)) in
  is_festival (ev 7) = true /\ is_festival (ev 6) = false.
Proof. split; reflexivity. Qed.

(** A festival is set aside before its fields are read: one with a location
    that cannot be read is counted and the loop goes on. *)
Example festival_fields_are_not_read :
  event_step (fun _ => None) Calendar.reference LAT LON ([], 0, 0)
    (Dict (JsonEvent "Fest" StartNumber LocationOther
                     (PerformerList (repeat (PerformerOther "Act") 7))))
  = Completed ([], 1, 1).
Proof. reflexivity. Qed.

(** C5, as the claim has it: an event that lists one performer and whose
    location is null adds no record, and the event behind it in the block,
    which alone on a page gives one record, adds none either. *)
Lemma unreadable_event_adds_no_record :
  let bad := JsonEvent "Show" (StartText "2024-01-15T20:00:00") LocationOther
                       (PerformerList [PerformerDict (Some "Act")]) in
  let good := JsonEvent "Late" (StartText "2024-01-15T22:00:00")
                        (LocationDict "Cellar" GeoFalsy)
                        (PerformerList [PerformerDict (Some "Other")]) in
  let scrape := scrape_page (fun _ => None) Calendar.reference LAT LON in
  is_festival bad = false
  /\ List.length (performer_list bad) = 1
  /\ fst (scrape (Some (Page [Array [Dict bad; Dict good]] None))) = ([], 1, 0)
  /\ map performer_name
         (fst (fst (fst (scrape (Some (Page [Array [Dict good]] None))))))
     = ["Other"].
Proof. cbv zeta. repeat split; vm_compute; reflexivity. Qed.

End ScrapeFacts.

(** ** The show-time filter and the deduplication *)

Module ProcessFacts.
Import Text Geo Scraper OrderFacts.

Section Filter.
Variable lib : datelib.

Lemma nonempty_true (s : string) : nonempty s = true <-> s <> "".
Proof.
  unfold nonempty. rewrite negb_true_iff. split.
  - intros H ->. now rewrite String.eqb_refl in H.
  - intros H. apply String.eqb_neq. exact H.
Qed.

Lemma has_show_started_true (row : performer_record) (current_time : Z) :
  has_show_started lib row current_time = true
  <-> event_start_time row <> ""
      /\ exists t, event_datetime lib row = Some t /\ (t < current_time)%Z.
Proof.
  unfold has_show_started.
  destruct (nonempty (event_start_time row)) eqn:En; cbn [negb].
  - apply nonempty_true in En.
    destruct (event_datetime lib row) as [t|].
    + rewrite Z.gtb_lt. split.
      * intros H. split; [exact En|]. now exists t.
      * intros (_ & t' & [= <-] & H). exact H.
    + split; [discriminate|]. now intros (_ & t & [=] & _).
  - split; [discriminate|]. intros (H & _).
    apply nonempty_true in H. congruence.
Qed.
End Filter.

(** C2, as the program has it.  The filter drops a record exactly when its
    start time is known, its instant in the configured zone can be computed,
    and that instant is strictly before the current time.  A record without
    start time is never dropped; a record whose date or time cannot be parsed
    is not dropped either, the [except] clause answering that the show has
    not started. *)
Theorem show_time_filter_drops_past_shows :
  forall (lib : datelib) (current_time : Z),
    (forall row,
        has_show_started lib row current_time = true
        <-> event_start_time row <> ""
            /\ exists t, event_datetime lib row = Some t /\ (t < current_time)%Z)
    /\ (forall row, event_start_time row = "" ->
                    has_show_started lib row current_time = false)
    /\ (forall row, event_datetime lib row = None ->
                    has_show_started lib row current_time = false)
    /\ (forall df row,
           In row (filter (fun r => negb (has_show_started lib r current_time)) df)
           <-> In row df
               /\ ~ (event_start_time row <> ""
                     /\ exists t, event_datetime lib row = Some t /\ (t < current_time)%Z)).
Proof.
  intros lib current_time. split; [|split; [|split]].
  - intros row. apply has_show_started_true.
  - intros row H. unfold has_show_started. now rewrite H.
  - intros row H. unfold has_show_started. rewrite H.
    now destruct (negb _).
  - intros df row. rewrite filter_In, negb_true_iff, <- has_show_started_true.
    now rewrite not_true_iff_false.
Qed.

(** 2024-01-15 21:00 in Chicago (03:00 UTC on the 16th), as an instant. *)
Definition nine_pm : Z := 1705374000%Z.

Definition row_at (date start : string) : performer_record :=
  PerformerRecord "Hall" "Show" date start (VStr "") (VStr "") Unknown "Act".

Example started_show_is_dropped :
  has_show_started Calendar.reference (row_at "2024-01-15T20:00:00" "20:00") nine_pm = true
  /\ has_show_started Calendar.reference (row_at "2024-01-15T20:00:00-06:00" "20:00") nine_pm = true
  /\ has_show_started Calendar.reference (row_at "2024-01-15" "20:00") nine_pm = true
  /\ has_show_started Calendar.reference (row_at "2024-01-15T22:00:00" "22:00") nine_pm = false
  /\ has_show_started Calendar.reference (row_at "2024-01-15T03:00:00Z" "") nine_pm = false.
Proof. repeat split; vm_compute; reflexivity. Qed.

(** C2, as the claim has it: a record with a start time and a date that no
    parser accepts is kept by the filter, not dropped. *)
Lemma unparsable_date_is_kept :
  let row := row_at "tomorrow night" "20:00" in
  event_start_time row <> ""
  /\ fromisoformat Calendar.reference (replace "Z" "+00:00" (event_date row)) = None
  /\ strptime_date Calendar.reference (split_head "T" (event_date row)) = None
  /\ event_datetime Calendar.reference row = None
  /\ has_show_started Calendar.reference row nine_pm = false
  /\ filter (fun r => negb (has_show_started Calendar.reference r nine_pm)) [row] = [row]
  /\ (let extracted :=
        extract_event_data (fun _ => None) Calendar.reference LAT LON
          (Event "Show" "2024-13-45T25:00" (Location "Hall" None)
                 (PerformerList [PerformerDict (Some "Act")])) "Act" in
      fromisoformat Calendar.reference (replace "Z" "+00:00" (event_date extracted)) = None
      /\ strptime_date Calendar.reference (split_head "T" (event_date extracted)) = None
      /\ has_show_started Calendar.reference extracted nine_pm = false).
Proof. cbv zeta. repeat split; try discriminate; vm_compute; reflexivity. Qed.

End ProcessFacts.

Module DedupFacts.
Import Text Geo Scraper OrderFacts.

(** *** The keys of the grouping *)

Lemma in_insert_key (k x : string) (keys : list string) :
  In k (insert_key x keys) <-> k = x \/ In k keys.
Proof.
  induction keys as [|y t IH]; cbn.
  - intuition congruence.
  - destruct (String.compare x y) eqn:E; cbn.
    + apply String.compare_eq_iff in E. subst y. intuition congruence.
    + intuition congruence.
    + rewrite IH. intuition congruence.
Qed.

Lemma insert_key_increasing (x : string) (keys : list string) :
  StronglySorted name_lt keys -> StronglySorted name_lt (insert_key x keys).
Proof.
  induction 1 as [|y t Ht IH Hy]; cbn.
  - repeat constructor.
  - destruct (String.compare x y) eqn:E.
    + now constructor.
    + constructor; [now constructor|].
      constructor; [exact E|].
      rewrite Forall_forall in *. intros z Hz.
      eapply name_lt_trans; [exact E | apply Hy, Hz].
    + constructor; [exact IH|].
      rewrite Forall_forall in *. intros z Hz.
      apply in_insert_key in Hz. destruct Hz as [-> | Hz].
      * now apply name_gt_lt.
      * apply Hy, Hz.
Qed.

Lemma in_group_keys (k : string) (names : list string) :
  In k (group_keys names) <-> In k names.
Proof.
  induction names as [|n t IH]; cbn; [tauto|].
  rewrite in_insert_key, IH. intuition congruence.
Qed.

Lemma group_keys_increasing (names : list string) :
  StronglySorted name_lt (group_keys names).
Proof.
  induction names as [|n t IH]; cbn; [constructor | now apply insert_key_increasing].
Qed.

(** *** The first row of a group *)

Section First.
Variable df : list performer_record.

Let named (k : string) (r : performer_record) : bool := String.eqb (performer_name r) k.

Lemma find_named_some (k : string) :
  In k (map performer_name df) -> exists r, find (named k) df = Some r.
Proof.
  intros H. apply in_map_iff in H. destruct H as (r & <- & Hr).
  destruct (find (named (performer_name r)) df) as [r'|] eqn:E; [now exists r'|].
  apply (find_none _ _ E) in Hr. unfold named in Hr.
  now rewrite String.eqb_refl in Hr.
Qed.

Lemma names_of_groupby :
  map unique_name (groupby_first df) = group_keys (map performer_name df).
Proof.
  unfold groupby_first.
  assert (H : forall k, In k (group_keys (map performer_name df)) ->
                        In k (map performer_name df))
    by (intros k; apply in_group_keys).
  induction (group_keys (map performer_name df)) as [|k t IH]; [reflexivity|].
  cbn [flat_map]. rewrite map_app, IH by (intros; apply H; now right).
  destruct (@find_named_some k (H k (or_introl eq_refl))) as (r & Hr).
  unfold agg_first. fold (named k). now rewrite Hr.
Qed.

Lemma in_groupby (u : unique_performer) :
  In u (groupby_first df)
  <-> exists r, find (named (unique_name u)) df = Some r
                /\ u = UniquePerformer (performer_name r) (venue r) (distance_miles r).
Proof.
  unfold groupby_first. rewrite in_flat_map. split.
  - intros (k & _ & Hu). unfold agg_first in Hu. fold (named k) in Hu.
    destruct (find (named k) df) as [r|] eqn:E; [|destruct Hu].
    destruct Hu as [<- | []]. cbn [unique_name]. exists r. split; [exact E|].
    apply find_some in E. destruct E as [_ E]. unfold named in E.
    apply String.eqb_eq in E. now rewrite E.
  - intros (r & Hf & ->). cbn [unique_name] in Hf.
    exists (performer_name r). split.
    + apply in_group_keys, in_map. apply (find_some _ _ Hf).
    + unfold agg_first. fold (named (performer_name r)). rewrite Hf. now left.
Qed.
End First.

(** In a list ordered by distance, the first row of a name is a closest one. *)
Lemma first_is_closest (df : list performer_record) (k : string) (r : performer_record) :
  StronglySorted (fun r1 r2 => distance_leb (distance_miles r1) (distance_miles r2) = true) df ->
  find (fun x => String.eqb (performer_name x) k) df = Some r ->
  forall r', In r' df -> performer_name r' = k ->
             distance_leb (distance_miles r) (distance_miles r') = true.
Proof.
  induction 1 as [|x t Ht IH Hx]; cbn; [discriminate|].
  destruct (String.eqb (performer_name x) k) eqn:E.
  - intros [= <-] r' [<- | Hr'] _.
    + apply distance_leb_refl.
    + rewrite Forall_forall in Hx. apply Hx, Hr'.
  - intros Hf r' [<- | Hr'] Hk.
    + apply String.eqb_neq in E. contradiction.
    + now apply IH.
Qed.

Section Process.
Variable lib : datelib.
Variable numpy : sorter.
Variable current_time : Z.

(** The rows that reach the grouping. *)
Definition kept (performers : list performer_record) : list performer_record :=
  filter (fun r => negb (has_show_started lib r current_time))
         (filter (fun r => negb (String.eqb (venue r) "")) performers).

Lemma sort_values_nil : sort_values numpy [] = [].
Proof. apply Permutation_nil. symmetry. apply sort_values_perm. Qed.

Lemma process_performers_eq (performers : list performer_record) :
  process_performers lib numpy performers current_time true
  = groupby_first (sort_values numpy (kept performers)).
Proof.
  destruct performers as [|p t]; [|reflexivity].
  cbn. now rewrite sort_values_nil.
Qed.

Lemma in_sorted_kept (performers : list performer_record) (r : performer_record) :
  In r (sort_values numpy (kept performers)) <-> In r (kept performers).
Proof.
  split; apply Permutation_in; [|symmetry]; apply sort_values_perm.
Qed.

Lemma kept_venue (performers : list performer_record) (r : performer_record) :
  In r (kept performers) -> venue r <> "".
Proof.
  unfold kept. rewrite !filter_In, negb_true_iff.
  intros ((_ & H) & _). now apply String.eqb_neq.
Qed.
End Process.

(** C3.  The records that reach the grouping are those with a venue whose
    show has not started.  The output has one record per distinct name among
    them, names compared as they are written; each name among them is
    retained; and the retained record carries the venue and the distance of
    one occurrence of that name whose distance is smallest, a number coming
    before the unknown distance.  In particular, a name with an occurrence of
    known distance is retained with a known distance. *)
Theorem dedup_keeps_closest_occurrence :
  forall (lib : datelib) (numpy : sorter) (current_time : Z)
         (performers : list performer_record),
    let rows :=
      filter (fun r => negb (has_show_started lib r current_time))
             (filter (fun r => negb (String.eqb (venue r) "")) performers) in
    let out := process_performers lib numpy performers current_time true in
    NoDup (map unique_name out)
    /\ (forall r, In r rows -> exists u, In u out /\ unique_name u = performer_name r)
    /\ (forall u, In u out ->
          exists r, In r rows
                    /\ performer_name r = unique_name u
                    /\ venue r = unique_venue u
                    /\ distance_miles r = unique_distance u
                    /\ forall r', In r' rows -> performer_name r' = unique_name u ->
                                  distance_leb (distance_miles r) (distance_miles r') = true)
    /\ (forall u r' q, In u out -> In r' rows -> performer_name r' = unique_name u ->
                       distance_miles r' = Miles q ->
                       exists q', unique_distance u = Miles q' /\ (q' <= q)%Q).
Proof.
  intros lib numpy current_time performers. cbv zeta.
  fold (kept lib current_time performers).
  rewrite process_performers_eq.
  set (df := sort_values numpy (kept lib current_time performers)).
  assert (Hsorted : StronglySorted
            (fun r1 r2 => distance_leb (distance_miles r1) (distance_miles r2) = true) df)
    by apply sort_values_sorted.
  assert (Hin : forall r, In r df <-> In r (kept lib current_time performers))
    by (intros r; apply in_sorted_kept).
  assert (Hout : forall u, In u (groupby_first df) ->
            exists r, In r (kept lib current_time performers)
                      /\ performer_name r = unique_name u
                      /\ venue r = unique_venue u
                      /\ distance_miles r = unique_distance u
                      /\ forall r', In r' (kept lib current_time performers) ->
                                    performer_name r' = unique_name u ->
                                    distance_leb (distance_miles r) (distance_miles r') = true).
  { intros u Hu. apply in_groupby in Hu. destruct Hu as (r & Hf & ->).
    cbn [unique_name unique_venue unique_distance] in *.
    exists r. repeat split; try reflexivity.
    - apply Hin. apply (find_some _ _ Hf).
    - intros r' Hr' Hn. apply (first_is_closest Hsorted Hf); [now apply Hin | exact Hn]. }
  split; [|split; [|split]].
  - rewrite names_of_groupby. apply increasing_NoDup, group_keys_increasing.
  - intros r Hr.
    assert (Hk : In (performer_name r) (map unique_name (groupby_first df))).
    { rewrite names_of_groupby. apply in_group_keys, in_map, Hin, Hr. }
    apply in_map_iff in Hk. destruct Hk as (u & Hu & Huin). now exists u.
  - exact Hout.
  - intros u r' q Hu Hr' Hn Hd.
    destruct (Hout u Hu) as (r & _ & _ & _ & Hdist & Hmin).
    specialize (Hmin r' Hr' Hn). rewrite Hd, Hdist in Hmin.
    destruct (unique_distance u) as [q'|]; [|discriminate].
    exists q'. split; [reflexivity|]. now apply Qle_bool_iff.
Qed.

(** C10.  No record of the deduplicated output has an empty venue: the rows
    with an empty venue are removed before anything else is done. *)
Theorem no_empty_venue_in_output :
  forall (lib : datelib) (numpy : sorter) (current_time : Z) (snapshot_written : bool)
         (performers : list performer_record),
    Forall (fun u => unique_venue u <> "")
           (process_performers lib numpy performers current_time snapshot_written)
    /\ Forall (fun r => venue r <> "")
              (filter (fun r => negb (String.eqb (venue r) "")) performers).
Proof.
  intros lib numpy current_time snapshot_written performers. split.
  - destruct snapshot_written.
    + rewrite process_performers_eq. apply Forall_forall. intros u Hu.
      apply in_groupby in Hu. destruct Hu as (r & Hf & ->). cbn [unique_venue].
      apply find_some in Hf. destruct Hf as [Hf _].
      apply in_sorted_kept in Hf. now apply kept_venue in Hf.
    + destruct performers; constructor.
  - apply Forall_forall. intros r Hr. apply filter_In in Hr.
    destruct Hr as [_ Hr]. apply negb_true_iff in Hr. now apply String.eqb_neq.
Qed.

Definition seen (name venue_name : string) (d : distance) : performer_record :=
  PerformerRecord venue_name "Show" "2024-01-15" "" (VStr "") (VStr "") d name.

(** The example of the specification: distances 3.2 and 1.1. *)
Example closer_venue_is_retained :
  process_performers Calendar.reference stable_sorter
    [seen "Act" "Far Hall" (Miles (32 # 10)); seen "Act" "Near Hall" (Miles (11 # 10));
     seen "act" "" Unknown; seen "act" "Cellar" Unknown]
    ProcessFacts.nine_pm true
  = [UniquePerformer "Act" "Near Hall" (Miles (11 # 10));
     UniquePerformer "act" "Cellar" Unknown].
Proof. vm_compute. reflexivity. Qed.

End DedupFacts.

(** ** Artist lookup *)

Module SpotifyFacts.
Import Text Utils Matcher Geo Spotify.

Section Lookup.
Variable lower : string -> string.
Variable ratio : string -> string -> Q.
Variable service : api.

(** The two shapes of a lookup result. *)
Definition error_shaped (r : result) : Prop :=
  error r <> None /\ uri r = None /\ exact_match r = None
  /\ Spotify.similarity_score r = None /\ had_region_identifier r = None.

Definition track_shaped (r : result) : Prop :=
  error r = None /\ uri r <> None /\ found_artist r <> None /\ exact_match r <> None
  /\ Spotify.similarity_score r <> None /\ had_region_identifier r <> None.

Lemma error_result_shaped (n : string) (f : option string) (msg : string) :
  error_shaped (error_result n f msg).
Proof. unfold error_shaped; cbn. repeat split; discriminate. Qed.

Lemma search_artist_shape (access_token : option string) (artist_name : string) :
  let r := search_artist lower ratio service access_token artist_name in
  searched_artist r = artist_name
  /\ (error_shaped r \/ track_shaped r)
  /\ (found_artist r <> None -> error r <> None -> error r = Some "No tracks found").
Proof.
  cbv zeta. unfold search_artist.
  destruct access_token as [token|];
    [|split; [reflexivity | split; [left; apply error_result_shaped | cbn; congruence]]].
  destruct (negb (nonempty token));
    [split; [reflexivity | split; [left; apply error_result_shaped | cbn; congruence]]|].
  destruct (search service (clean_artist_name artist_name)) as [e|body|[|a t]];
    try (split; [reflexivity | split; [left; apply error_result_shaped | cbn; congruence]]).
  destruct (find_best_match _ _ _ _ _) as [[[chosen|] ex] sim];
    [|split; [reflexivity | split; [left; apply error_result_shaped | cbn; congruence]]].
  destruct (fst (get_artist_track service (artist_id chosen))) as [tr|].
  - split; [reflexivity | split; [right | cbn; congruence]].
    unfold track_shaped; cbn. repeat split; discriminate.
  - split; [reflexivity | split; [left; apply error_result_shaped | cbn; congruence]].
Qed.
End Lookup.

(** C8, as the program has it.  Every result of [search_artist] carries
    exactly one of a track URI and an error reason.  With an error reason it
    carries no URI, no tier, no score and no region flag, and it carries the
    catalog name of the artist only when the reason is that the matched artist
    has no track; with a URI it carries the catalog name, the tier, the score
    and the region flag, and no error reason. *)
Theorem result_has_uri_or_error :
  forall (lower : string -> string) (ratio : string -> string -> Q) (service : api)
         (access_token : option string) (artist_name : string),
    let r := search_artist lower ratio service access_token artist_name in
    (error r = None <-> uri r <> None)
    /\ (error r <> None ->
        uri r = None /\ exact_match r = None /\ Spotify.similarity_score r = None
        /\ had_region_identifier r = None
        /\ (found_artist r <> None -> error r = Some "No tracks found"))
    /\ (uri r <> None ->
        error r = None /\ found_artist r <> None /\ exact_match r <> None
        /\ Spotify.similarity_score r <> None /\ had_region_identifier r <> None).
Proof.
  intros lower ratio service access_token artist_name. cbv zeta.
  destruct (search_artist_shape lower ratio service access_token artist_name)
    as (_ & [He | Ht] & Hname).
  - destruct He as (He & Hu & Hx & Hs & Hr). split; [|split].
    + split; congruence.
    + intros _. repeat split; try assumption. intros Hf. now apply Hname.
    + congruence.
  - destruct Ht as (He & Hu & Hf & Hx & Hs & Hr). split; [|split].
    + split; congruence.
    + congruence.
    + intros _. repeat split; assumption.
Qed.

(** A catalog that knows one artist of the searched name and none of its
    tracks. *)
Definition silent_catalog : api :=
  Api (fun _ => Items [Artist "id1" "Artist" 1200])
      (fun _ => Some []) (fun _ => Some []) (fun _ => None) (fun _ => None).

(** C8, as the claim has it: this result has an error reason and the
    resolved catalog name. *)
Lemma no_tracks_result_names_the_artist :
  error (search_artist Text.lower_ascii (fun _ _ => 0%Q) silent_catalog (Some "token") "Artist")
  = Some "No tracks found"
  /\ found_artist (search_artist Text.lower_ascii (fun _ _ => 0%Q) silent_catalog (Some "token") "Artist")
     = Some "Artist".
Proof. split; reflexivity. Qed.

End SpotifyFacts.

(** ** The lookup loop and the playlist *)

Module PipelineFacts.
Import Text Utils Matcher Geo Spotify Scraper Pipeline OrderFacts.

(** *** Results that [create_playlist] can read *)

(** A result without error reason has the keys the loops read. *)
Definition readable (r : result) : Prop :=
  error r = None ->
  exists s u x f,
    Spotify.similarity_score r = Some s /\ uri r = Some u
    /\ exact_match r = Some x /\ found_artist r = Some f.

(** A matched result at or above the skip threshold. *)
Definition included (r : result) : bool :=
  negb (has_error r)
  && match Spotify.similarity_score r with
     | Some s => Qle_bool SKIP_THRESHOLD s
     | None => false
     end.

(** A matched result below the skip threshold. *)
Definition below (r : result) : bool :=
  negb (has_error r)
  && match Spotify.similarity_score r with
     | Some s => negb (Qle_bool SKIP_THRESHOLD s)
     | None => false
     end.

Definition uris_of (rs : list result) : list string :=
  flat_map (fun r => if included r then match uri r with Some u => [u] | None => [] end
                     else []) rs.

Definition count (f : result -> bool) (rs : list result) : nat := List.length (filter f rs).

Definition is_exact_result (r : result) : bool :=
  match exact_match r with Some true => true | _ => false end.

Lemma count_perm (f : result -> bool) (l l' : list result) :
  Permutation l l' -> count f l = count f l'.
Proof.
  unfold count. induction 1; cbn; try congruence.
  - destruct (f x); cbn; congruence.
  - destruct (f x), (f y); reflexivity.
Qed.

Lemma has_error_false (r : result) : has_error r = false <-> error r = None.
Proof. unfold has_error. destruct (error r); split; congruence. Qed.

Lemma readable_cases (r : result) :
  readable r ->
  has_error r = true
  \/ exists s u x f,
       has_error r = false /\ Spotify.similarity_score r = Some s /\ uri r = Some u
       /\ exact_match r = Some x /\ found_artist r = Some f.
Proof.
  intros H. destruct (has_error r) eqn:E; [now left | right].
  apply has_error_false in E. destruct (H E) as (s & u & x & f & H1 & H2 & H3 & H4).
  now exists s, u, x, f.
Qed.

Lemma upcoming_shows_spec (rs : list result) :
  Forall readable rs ->
  exists lines, upcoming_shows rs = Some lines /\ List.length lines = count included rs.
Proof.
  unfold count. induction 1 as [|r t Hr _ IH]; cbn [upcoming_shows filter].
  - now exists [].
  - destruct IH as (lines & El & Hl). unfold included at 1.
    destruct (readable_cases Hr) as [E | (s & u & x & f & E & Es & _ & _ & Ef)];
      rewrite E; cbn [negb andb]; [now exists lines|].
    rewrite Es, Ef. destruct (Qle_bool SKIP_THRESHOLD s); cbn [negb].
    + rewrite El. eexists. split; [reflexivity|]. cbn. now rewrite Hl.
    + now exists lines.
Qed.

Lemma fuzzy_details_spec (rs : list result) :
  Forall readable rs -> exists l, fuzzy_details rs = Some l.
Proof.
  induction 1 as [|r t Hr _ IH]; cbn [fuzzy_details].
  - now exists [].
  - destruct IH as (l & El).
    destruct (readable_cases Hr) as [E | (s & u & x & f & E & Es & _ & Ex & Ef)];
      rewrite E; [now exists l|].
    rewrite Es. destruct (Qle_bool SKIP_THRESHOLD s); cbn [negb]; [|now exists l].
    rewrite Ex, Ef. destruct x; [now exists l|].
    rewrite El. now eexists.
Qed.

Lemma approve_spec (rs : list result) :
  Forall readable rs ->
  forall uris s,
    approve rs (uris, s)
    = Some (uris ++ uris_of rs,
            Stats (exact s + count (fun r => included r && is_exact_result r) rs)
                  (fuzzy s + count (fun r => included r && negb (is_exact_result r)) rs)
                  (skipped s + count below rs)).
Proof.
  unfold count, uris_of.
  induction 1 as [|r t Hr _ IH]; intros uris s; cbn [approve flat_map filter].
  - destruct s. cbn. now rewrite app_nil_r, !Nat.add_0_r.
  - destruct (readable_cases Hr) as [E | (sim & u & x & f & E & Es & Eu & Ex & _)].
    + assert (Hi : included r = false) by (unfold included; now rewrite E).
      assert (Hb : below r = false) by (unfold below; now rewrite E).
      unfold approve_step. rewrite E, Hi, Hb. cbn [andb app]. apply IH.
    + unfold approve_step. rewrite E, Es.
      destruct (Qle_bool SKIP_THRESHOLD sim) eqn:Eq.
      * assert (Hi : included r = true) by (unfold included; now rewrite E, Es, Eq).
        assert (Hb : below r = false) by (unfold below; now rewrite E, Es, Eq).
        assert (Hx : is_exact_result r = x)
          by (unfold is_exact_result; rewrite Ex; now destruct x).
        rewrite Eu, Ex, Hi, Hb, Hx.
        destruct x; rewrite IH; cbn [exact fuzzy skipped List.length app andb negb];
          rewrite <- app_assoc; cbn [app];
          apply f_equal; (apply f_equal2; [reflexivity|]); apply f_equal3; lia.
      * assert (Hi : included r = false) by (unfold included; now rewrite E, Es, Eq).
        assert (Hb : below r = true) by (unfold below; now rewrite E, Es, Eq).
        rewrite Hi, Hb, IH. cbn [exact fuzzy skipped List.length app andb].
        apply f_equal. apply f_equal2; [reflexivity|]. apply f_equal3; lia.
Qed.

Lemma results_sorted_perm (results : list result) :
  Permutation (results_sorted results) results.
Proof. apply PyFacts.sorted_perm. Qed.

(** The playlist built from readable results. *)
Lemma create_playlist_spec (results : list result) :
  Forall readable results ->
  exists pl,
    create_playlist results = Some pl
    /\ approved_uris pl = uris_of (results_sorted results)
    /\ skipped (counters pl) = count below results
    /\ exact (counters pl) = count (fun r => included r && is_exact_result r) results
    /\ fuzzy (counters pl) = count (fun r => included r && negb (is_exact_result r)) results
    /\ List.length (shown pl) = count included results.
Proof.
  intros H.
  assert (Hs : Forall readable (results_sorted results)).
  { rewrite Forall_forall in *. intros r Hr. apply H.
    apply (Permutation_in _ (results_sorted_perm results) Hr). }
  unfold create_playlist.
  destruct (upcoming_shows_spec Hs) as (lines & -> & Hl).
  destruct (fuzzy_details_spec Hs) as (fz & ->).
  rewrite (approve_spec Hs). cbn [app exact fuzzy skipped Nat.add].
  eexists. split; [reflexivity|]. cbn [approved_uris counters shown skipped exact fuzzy].
  rewrite Hl. repeat split; apply count_perm, results_sorted_perm.
Qed.

(** The three categories of results are disjoint and cover them all. *)
Lemma categories (results : list result) :
  Forall readable results ->
  List.length results
  = errors results + count below results + count included results.
Proof.
  unfold errors, count. induction 1 as [|r t Hr _ IH]; cbn [List.length filter]; [reflexivity|].
  unfold included at 1, below at 1.
  destruct (readable_cases Hr) as [E | (s & u & x & f & E & Es & _)];
    rewrite E; cbn [negb andb List.length]; [lia|].
  rewrite Es. destruct (Qle_bool SKIP_THRESHOLD s); cbn [negb List.length]; lia.
Qed.

Section Lookups.
Variable lower : string -> string.
Variable ratio : string -> string -> Q.
Variable service : api.
Variable access_token : option string.

Lemma lookup_fields (data : list unique_performer) (artist : string) :
  let r := lookup lower ratio service access_token data artist in
  let s := search_artist lower ratio service access_token artist in
  searched_artist r = artist /\ error r = error s /\ uri r = uri s
  /\ found_artist r = found_artist s /\ exact_match r = exact_match s
  /\ Spotify.similarity_score r = Spotify.similarity_score s.
Proof.
  cbv zeta. unfold lookup. cbn. repeat split.
  apply (SpotifyFacts.search_artist_shape lower ratio service access_token artist).
Qed.

Lemma lookup_readable (data : list unique_performer) (artist : string) :
  readable (lookup lower ratio service access_token data artist).
Proof.
  destruct (lookup_fields data artist) as (_ & He & Hu & Hf & Hx & Hs).
  unfold readable. rewrite He, Hu, Hf, Hx, Hs. intros E.
  destruct (SpotifyFacts.search_artist_shape lower ratio service access_token artist)
    as (_ & [Hshape | Hshape] & _).
  - destruct Hshape as (H & _). contradiction.
  - destruct Hshape as (_ & H1 & H2 & H3 & H4 & _).
    destruct (Spotify.similarity_score _) as [s|]; [|contradiction].
    destruct (uri _) as [u|]; [|contradiction].
    destruct (exact_match _) as [x|]; [|contradiction].
    destruct (found_artist _) as [f|]; [|contradiction].
    now exists s, u, x, f.
Qed.

Lemma lookup_all_readable (data : list unique_performer) :
  Forall readable (lookup_all lower ratio service access_token data).
Proof.
  unfold lookup_all. apply Forall_forall. intros r Hr.
  apply in_map_iff in Hr. destruct Hr as (n & <- & _). apply lookup_readable.
Qed.
End Lookups.

(** C6.  For the results of the lookup loop, with the default threshold of
    0.70: the loops of [create_playlist] run to their end; the URIs added are those of the results
    without error whose score is at least 0.70, in the order of the sorted
    results; the results without error whose score is below 0.70 are counted
    as skipped, and the error count of [main] counts the results with an
    error reason only; every result falls in exactly one of the categories
    error, skipped, exact and fuzzy, so that a matched result below the
    threshold is skipped, not an error, and adds no URI. *)
Theorem low_scores_are_skipped :
  forall (lower : string -> string) (ratio : string -> string -> Q) (service : api)
         (access_token : option string)
         (performers_data : list unique_performer),
    let results := lookup_all lower ratio service access_token performers_data in
    exists pl,
      create_playlist results = Some pl
      /\ approved_uris pl
         = flat_map (fun r => match error r, Spotify.similarity_score r, uri r with
                              | None, Some s, Some u =>
                                  if Qle_bool (70 # 100) s then [u] else []
                              | _, _, _ => []
                              end) (results_sorted results)
      /\ skipped (counters pl) = count below results
      /\ exact (counters pl) + fuzzy (counters pl) = count included results
      /\ List.length (shown pl) = count included results
      /\ errors results = count has_error results
      /\ List.length results
         = errors results + skipped (counters pl) + exact (counters pl) + fuzzy (counters pl)
      /\ (forall r s, In r results -> error r = None ->
                      Spotify.similarity_score r = Some s ->
                      ((s < 70 # 100)%Q ->
                       below r = true /\ included r = false /\ has_error r = false)
                      /\ ((70 # 100 <= s)%Q ->
                          included r = true /\ below r = false)).
Proof.
  intros lower ratio service access_token performers_data. cbv zeta.
  set (results := lookup_all lower ratio service access_token performers_data).
  assert (Hr : Forall readable results) by apply lookup_all_readable.
  destruct (create_playlist_spec Hr) as (pl & Hpl & Hu & Hs & Hx & Hf & Hl).
  assert (Hsplit : count included results
                   = count (fun r => included r && is_exact_result r) results
                     + count (fun r => included r && negb (is_exact_result r)) results).
  { unfold count. clear. induction results as [|r t IH]; cbn [filter]; [reflexivity|].
    destruct (included r), (is_exact_result r); cbn [andb negb List.length]; lia. }
  exists pl. split; [exact Hpl|]. split; [|split; [|split; [|split; [|split; [|split]]]]].
  - rewrite Hu. unfold uris_of. clear.
    induction (results_sorted results) as [|r t IH]; [reflexivity|].
    cbn [flat_map]. rewrite IH. f_equal.
    unfold included, has_error, SKIP_THRESHOLD.
    destruct (error r) as [e|], (Spotify.similarity_score r) as [sc|], (uri r) as [u|];
      cbn; try reflexivity; now destruct (Qle_bool _ _).
  - exact Hs.
  - rewrite Hx, Hf. now symmetry.
  - exact Hl.
  - reflexivity.
  - rewrite (categories Hr), Hs, Hx, Hf, Hsplit. lia.
  - intros r s _ He Es. unfold included, below, SKIP_THRESHOLD.
    apply has_error_false in He. rewrite He, Es. cbn [negb andb]. split.
    + intros Hlt.
      assert (E : Qle_bool (70 # 100) s = false).
      { apply not_true_iff_false. rewrite Qle_bool_iff. now apply Qlt_not_le. }
      now rewrite E.
    + intros Hle. apply Qle_bool_iff in Hle. now rewrite Hle.
Qed.

(** A catalog with one exact and one weak match. *)
Definition demo_catalog : api :=
  Api (fun q => if String.eqb q "Exact Act" then Items [Artist "a1" "Exact Act" 10]
                else if String.eqb q "Weak Act" then Items [Artist "a2" "Weak Acts" 5]
                else Items [])
      (fun id => Some [Track (String.append "spotify:track:" id)])
      (fun _ => Some []) (fun _ => Some []) (fun _ => None).

(** The example of the specification: a match of score 0.65 is skipped. *)
Example score_065_is_skipped :
  option_map (fun pl => (approved_uris pl, counters pl))
    (create_playlist
       (lookup_all Text.lower_ascii (fun _ _ => (65 # 100)%Q) demo_catalog (Some "token")
          [UniquePerformer "Exact Act" "Near Hall" (Miles (11 # 10));
           UniquePerformer "Nobody" "Cellar" Unknown;
           UniquePerformer "Weak Act" "Far Hall" (Miles (32 # 10))]))
  = Some (["spotify:track:a1"], Stats 1 0 1)
  /\ errors (lookup_all Text.lower_ascii (fun _ _ => (65 # 100)%Q) demo_catalog (Some "token")
               [UniquePerformer "Exact Act" "Near Hall" (Miles (11 # 10));
                UniquePerformer "Nobody" "Cellar" Unknown;
                UniquePerformer "Weak Act" "Far Hall" (Miles (32 # 10))]) = 1.
Proof. split; vm_compute; reflexivity. Qed.

(** C9, as the program has it.  A lookup always answers with a result for
    the performer it was asked about: without access token, on a failed
    request, on an answer without artists, on an empty candidate list and
    when no candidate qualifies, the result carries the matching error
    reason.  The lookup loop yields one result per performer, in order, each
    with the outcome of its own lookup, whatever the others did.  On a page, a
    block that [json.loads] rejects adds no event and no performer; a block
    with an element that the loop cannot read keeps the events in front of
    that element, counts the element as an event without any record, and
    loses the elements behind it; in both cases the other blocks are read as
    if the block stood alone, the link to the next page is the one of the
    page, and a page that cannot be fetched gives the empty answer. *)
Theorem failures_are_isolated :
  forall (lower : string -> string) (ratio : string -> string -> Q) (service : api)
         (access_token : option string)
         (parse_float : string -> option Q) (lib : datelib) (self_lat self_lon : value),
    let find := search_artist lower ratio service access_token in
    let scrape := scrape_page parse_float lib self_lat self_lon in
    let bstep := block_step parse_float lib self_lat self_lon in
    (forall artist, searched_artist (find artist) = artist)
    /\ (forall artist, access_token = None \/ access_token = Some "" ->
                       error (find artist) = Some "No access token")
    /\ (forall artist token, access_token = Some token -> token <> "" ->
          let has_region := has_region_identifier artist in
          let search_name := clean_artist_name artist in
          match search service search_name with
          | RequestFailed e => error (find artist) = Some (String.append "Search error: " e)
          | NoArtistsKey body => error (find artist) = Some (String.append "API Error: " body)
          | Items [] => error (find artist) = Some "No artist found"
          | Items artists =>
              fst (fst (find_best_match lower ratio artist search_name has_region artists)) = None ->
              error (find artist) = Some "No suitable artist found"
          end)
    /\ (forall performers_data,
          map searched_artist (lookup_all lower ratio service access_token performers_data)
          = map unique_name performers_data
          /\ map error (lookup_all lower ratio service access_token performers_data)
             = map (fun p => error (find (unique_name p))) performers_data
          /\ map uri (lookup_all lower ratio service access_token performers_data)
             = map (fun p => uri (find (unique_name p))) performers_data)
    /\ (forall st, bstep st Unparsable = st)
    /\ (forall el, ScrapeFacts.raises el = true
                   <-> el = NotDict
                       \/ exists e, el = Dict e /\ is_festival e = false
                                    /\ read_event e = None)
    /\ (forall st before el after,
          Forall (fun x => ScrapeFacts.raises x = false) before ->
          ScrapeFacts.raises el = true ->
          bstep st (Array (before ++ el :: after))
          = (fst (fst (bstep st (Array before))),
             snd (fst (bstep st (Array before))) + 1,
             snd (bstep st (Array before))))
    /\ (forall blocks1 blocks2 next,
          let answer1 := fst (scrape (Some (Page blocks1 next))) in
          let answer2 := fst (scrape (Some (Page blocks2 next))) in
          fst (scrape (Some (Page (blocks1 ++ blocks2) next)))
          = (fst (fst answer1) ++ fst (fst answer2),
             snd (fst answer1) + snd (fst answer2),
             snd answer1 + snd answer2))
    /\ (forall blocks next,
          get_next_page_url (snd (scrape (Some (Page blocks next))))
          = match next with
            | Some href => Some (String.append "https://www.songkick.com" href)
            | None => None
            end)
    /\ scrape None = ([], 0, 0, None).
Proof.
  intros lower ratio service access_token parse_float lib self_lat self_lon. cbv zeta.
  split; [|split; [|split; [|split; [|split; [|split; [|split; [|split; [|split]]]]]]]].
  - intros artist. apply (SpotifyFacts.search_artist_shape lower ratio service access_token artist).
  - intros artist [-> | ->]; reflexivity.
  - intros artist token -> Hne. unfold search_artist.
    apply ProcessFacts.nonempty_true in Hne. rewrite Hne. cbn [negb].
    destruct (search service (clean_artist_name artist)) as [e|body|[|a t]]; try reflexivity.
    destruct (find_best_match _ _ _ _ _ _) as [[[chosen|] ex] sim]; cbn [fst].
    + discriminate.
    + reflexivity.
  - intros data. unfold lookup_all. rewrite !map_map.
    split; [|split]; apply map_ext; intros p; apply lookup_fields.
  - reflexivity.
  - apply ScrapeFacts.raises_spec.
  - intros [[ps ec] fc] before el after Hb Hel.
    rewrite !ScrapeFacts.block_step_eq. unfold ScrapeFacts.block_reached.
    cbn [ScrapeFacts.block_events fst snd].
    rewrite ScrapeFacts.reached_until by assumption.
    rewrite ScrapeFacts.reached_all by assumption.
    unfold ScrapeFacts.festivals.
    rewrite flat_map_app, filter_app, !length_app. cbn [flat_map filter].
    rewrite (ScrapeFacts.raises_no_record parse_float lib self_lat self_lon el Hel).
    rewrite (ScrapeFacts.raises_no_festival el Hel). cbn [List.length app].
    rewrite !app_nil_r, Nat.add_0_r.
    apply f_equal2; [apply f_equal2; [reflexivity|]|]; lia.
  - intros blocks1 blocks2 next. rewrite !ScrapeFacts.scrape_page_eq.
    cbn [fst snd blocks]. unfold ScrapeFacts.festivals.
    now rewrite !flat_map_app, filter_app, !length_app.
  - intros bs [href|]; reflexivity.
  - reflexivity.
Qed.

(** A page whose second block does not parse. *)
Example unparsable_block_is_skipped :
  let show n := ScrapeFacts.shaped
                  (Event "Show" "" (Location "Hall" None)
                         (PerformerList [PerformerDict (Some n)])) in
  let scrape := scrape_page (fun _ => None) Calendar.reference LAT LON in
  map performer_name
      (fst (fst (fst (scrape (Some (Page [Object (show "One"); Unparsable;
                                          Array [show "Two"; show "Three"]] None))))))
  = ["One"; "Two"; "Three"].
Proof. vm_compute. reflexivity. Qed.

(** C9, as the claim has it: a block whose second element has a null
    location does not contribute zero events: the first event and its
    performer are kept, the second is counted, and the third, which is well
    formed, is lost with it; the next block is read. *)
Lemma malformed_block_contributes_events :
  let show n := ScrapeFacts.shaped
                  (Event "Show" "" (Location "Hall" None)
                         (PerformerList [PerformerDict (Some n)])) in
  let bad := Dict (JsonEvent "Show" (StartText "") LocationOther
                             (PerformerList [PerformerDict (Some "Two")])) in
  let scrape := scrape_page (fun _ => None) Calendar.reference LAT LON in
  let answer := scrape (Some (Page [Array [show "One"; bad; show "Three"];
                                    Object (show "Four")] None)) in
  map performer_name (fst (fst (fst answer))) = ["One"; "Four"]
  /\ snd (fst (fst answer)) = 3
  /\ fst (fst (scrape (Some (Page [Array [show "One"; bad; show "Three"]] None))))
     <> ([], 0)
  /\ map performer_name
         (fst (fst (fst (scrape (Some (Page [Array [show "Three"]] None))))))
     = ["Three"].
Proof. cbv zeta. repeat split; try (vm_compute; reflexivity). vm_compute. discriminate. Qed.

(** C4, as the program has it.  The deduplicated list comes out in
    increasing order of performer name, the order of the keys of the
    grouping, and this is the order of the lookups; [create_playlist] then
    sorts the results by distance, unknown distances last, keeping every
    result. *)
Theorem output_by_name_playlist_by_distance :
  forall (lib : datelib) (numpy : sorter) (current_time : Z) (snapshot_written : bool)
         (performers : list performer_record)
         (lower : string -> string) (ratio : string -> string -> Q) (service : api)
         (access_token : option string)
         (results : list result),
    let out := process_performers lib numpy performers current_time snapshot_written in
    StronglySorted name_lt (map unique_name out)
    /\ map searched_artist (lookup_all lower ratio service access_token out) = map unique_name out
    /\ StronglySorted
         (fun r1 r2 => distance_leb (get_distance r1) (get_distance r2) = true)
         (results_sorted results)
    /\ Permutation (results_sorted results) results.
Proof.
  intros lib numpy current_time snapshot_written performers lower ratio service access_token
         results. cbv zeta.
  split; [|split; [|split]].
  - destruct snapshot_written.
    + rewrite DedupFacts.process_performers_eq, DedupFacts.names_of_groupby.
      apply DedupFacts.group_keys_increasing.
    + destruct performers; constructor.
  - unfold lookup_all. rewrite !map_map. apply map_ext. intros p. apply lookup_fields.
  - apply (PyFacts.sorted_sorted get_distance distance_leb
                                 distance_leb_total distance_leb_trans).
  - apply results_sorted_perm.
Qed.

(** C4, as the claim has it: two performers whose names and distances are in
    opposite orders come out by name, the farther one first. *)
Lemma output_is_not_by_distance :
  process_performers Calendar.reference stable_sorter
    [DedupFacts.seen "Zed" "Near Hall" (Miles (11 # 10));
     DedupFacts.seen "Abe" "Far Hall" (Miles (32 # 10))]
    ProcessFacts.nine_pm true
  = [UniquePerformer "Abe" "Far Hall" (Miles (32 # 10));
     UniquePerformer "Zed" "Near Hall" (Miles (11 # 10))]
  /\ distance_leb (Miles (32 # 10)) (Miles (11 # 10)) = false.
Proof. split; vm_compute; reflexivity. Qed.

End PipelineFacts.

(* ===================================================================== *)
(** * Further properties of the program *)
(* ===================================================================== *)

(** ** Names: case and region tags *)

Module NameFacts.
Import Text Utils Matcher.

Lemma chars_text (l : list ascii) : chars (text l) = l.
Proof. apply list_ascii_of_string_of_list_ascii. Qed.

Lemma text_chars (s : string) : text (chars s) = s.
Proof. apply string_of_list_ascii_of_string. Qed.

(** *** Characters *)

Lemma concat_group (l : list ascii) : List.concat (group l) = l.
Proof.
  induction l as [|b t IH]; cbn [group]; [reflexivity|].
  destruct (group t) as [|[|d ds] rest]; cbn in *.
  - now rewrite <- IH.
  - now rewrite <- IH.
  - destruct (is_continuation d); cbn; now rewrite <- IH.
Qed.

(** Putting the characters of a text end to end gives the text back. *)
Lemma join_characters (s : string) : join (characters s) = s.
Proof. unfold join, characters. rewrite concat_group. apply text_chars. Qed.

(** A byte with continuation bytes behind it. *)
Definition one_character (c : char) : Prop :=
  match c with
  | [] => False
  | _ :: t => forallb is_continuation t = true
  end.

(** A character that starts with a byte that is no continuation byte. *)
Definition opens (c : char) : Prop :=
  match c with
  | [] => False
  | b :: _ => is_continuation b = false
  end.

(** The shape of [characters s] and of its segments: the text is cut where a
    byte that is no continuation byte stands. *)
Definition grouped (cs : list char) : Prop := Forall one_character cs /\ Forall opens (tl cs).

Lemma grouped_group (l : list ascii) : grouped (group l).
Proof.
  unfold grouped. induction l as [|b t [IH1 IH2]]; cbn [group]; [split; constructor|].
  destruct (group t) as [|[|d ds] rest]; cbn [tl] in *.
  - split; repeat constructor.
  - inversion IH1 as [|? ? H]. destruct H.
  - inversion IH1 as [|? ? Hu Hr]. subst. cbn in Hu.
    destruct (is_continuation d) eqn:Ed; cbn [tl].
    + split; [|exact IH2]. constructor; [|exact Hr]. cbn. now rewrite Ed.
    + split.
      * constructor; [reflexivity|]. constructor; [exact Hu | exact Hr].
      * constructor; [exact Ed | exact IH2].
Qed.

Lemma group_continuation_app (t l : list ascii) :
  forallb is_continuation t = true ->
  Forall opens (group l) ->
  group (t ++ l) = match t with [] => group l | _ :: _ => t :: group l end.
Proof.
  intros Ht Hl. induction t as [|a t IH]; [reflexivity|].
  cbn in Ht. apply andb_true_iff in Ht. destruct Ht as [Ha Ht].
  cbn [app group]. rewrite (IH Ht).
  destruct t as [|a' t'].
  - destruct (group l) as [|[|d ds] rest]; [reflexivity | reflexivity|].
    inversion Hl as [|? ? Hd _]. cbn in Hd. now rewrite Hd.
  - cbn in Ht. apply andb_true_iff in Ht. destruct Ht as [Ha' _].
    now rewrite Ha'.
Qed.

Lemma group_concat (cs : list char) : grouped cs -> group (List.concat cs) = cs.
Proof.
  unfold grouped. induction cs as [|c cs IH]; intros [Hu Ho]; [reflexivity|].
  cbn [tl] in Ho. inversion Hu as [|? ? Hc Hcs]. subst.
  assert (Hg : group (List.concat cs) = cs).
  { apply IH. split; [exact Hcs|]. destruct cs; [constructor|]. now inversion Ho. }
  destruct c as [|b t]; [destruct Hc|]. cbn in Hc.
  cbn [List.concat app group].
  rewrite (group_continuation_app t (List.concat cs) Hc) by (now rewrite Hg).
  rewrite Hg. destruct t as [|a t'].
  - destruct cs as [|[|d ds] rest]; [reflexivity | reflexivity|].
    inversion Ho as [|? ? Hd _]. cbn in Hd. now rewrite Hd.
  - cbn in Hc. apply andb_true_iff in Hc. destruct Hc as [Ha _]. now rewrite Ha.
Qed.

(** The characters of a text made of a segment of a text are that segment. *)
Lemma characters_join (cs : list char) : grouped cs -> characters (join cs) = cs.
Proof. intros H. unfold characters, join. rewrite chars_text. now apply group_concat. Qed.

Lemma grouped_characters (s : string) : grouped (characters s).
Proof. apply grouped_group. Qed.

Lemma grouped_app (x y : list char) : grouped (x ++ y) -> grouped x /\ grouped y.
Proof.
  unfold grouped. intros [Hu Ho]. apply Forall_app in Hu. destruct Hu as [Hx Hy].
  destruct x as [|c x]; cbn [app tl] in *.
  - repeat split; try assumption; constructor.
  - apply Forall_app in Ho. destruct Ho as [Hox Hoy].
    repeat split; try assumption.
    destruct y; [constructor | now inversion Hoy].
Qed.

(** *** White space and the tag *)

Lemma is_char_true (a : ascii) (c : char) : is_char a c = true <-> c = [a].
Proof.
  destruct c as [|b [|b' t]]; cbn; split; try discriminate.
  - intros H. apply Ascii.eqb_eq in H. now subst.
  - intros [= ->]. apply Ascii.eqb_refl.
Qed.

Lemma space_not_tag (c : char) :
  is_space c = true ->
  is_upper c = false /\ is_char "(" c = false /\ is_char ")" c = false.
Proof.
  destruct c as [|b [|b' t]]; [now repeat split | | now repeat split].
  destruct b as [b0 b1 b2 b3 b4 b5 b6 b7].
  destruct b0, b1, b2, b3, b4, b5, b6, b7; cbn; intros H;
    try discriminate H; repeat split; reflexivity.
Qed.

Lemma lstrip_all_space (l : list char) :
  Forall (fun c => is_space c = true) l -> lstrip_chars l = [].
Proof. induction 1 as [|c t Hc _ IH]; cbn; [reflexivity | now rewrite Hc]. Qed.

Lemma lstrip_split (l : list char) :
  exists ws, l = ws ++ lstrip_chars l /\ Forall (fun c => is_space c = true) ws.
Proof.
  induction l as [|c t (ws & E & Hws)]; cbn [lstrip_chars].
  - now exists [].
  - destruct (is_space c) eqn:Ec.
    + exists (c :: ws). split; [cbn; now f_equal | now constructor].
    + now exists [].
Qed.

Lemma rstrip_split (l : list char) :
  exists ws, l = rstrip_chars l ++ ws /\ Forall (fun c => is_space c = true) ws.
Proof.
  unfold rstrip_chars. destruct (lstrip_split (rev l)) as (ws & E & Hws).
  exists (rev ws). split; [|now apply Forall_rev].
  rewrite <- rev_app_distr, <- E. symmetry. apply rev_involutive.
Qed.

Lemma lstrip_head (l : list char) (h : char) (t : list char) :
  lstrip_chars l = h :: t -> is_space h = false.
Proof.
  induction l as [|c r IH]; cbn [lstrip_chars]; [discriminate|].
  destruct (is_space c) eqn:Ec; [exact IH|]. now intros [= <- _].
Qed.

Lemma lstrip_keeps_nonspace (l : list char) (h : char) :
  In h l -> is_space h = false -> lstrip_chars l <> [].
Proof.
  induction l as [|c r IH]; cbn [lstrip_chars In]; [tauto|].
  intros [-> | Hin] Hh.
  - now rewrite Hh.
  - destruct (is_space c); [now apply IH | discriminate].
Qed.

Lemma lstrip_app (x w : list char) :
  lstrip_chars x <> [] -> lstrip_chars (x ++ w) = lstrip_chars x ++ w.
Proof.
  induction x as [|c r IH]; cbn [lstrip_chars app]; [congruence|].
  destruct (is_space c); [exact IH | reflexivity].
Qed.

Definition found (o : option (list char)) : bool :=
  match o with Some _ => true | None => false end.

(** What [tag_suffix] recognises: the tag, read backwards, in front of the
    rest. *)
Lemma tag_suffix_split (r before : list char) :
  tag_suffix r = Some before ->
  exists caps,
    r = [[")"%char]] ++ rev caps ++ [["("%char]] ++ before
    /\ Forall (fun c => is_upper c = true) caps
    /\ (List.length caps = 2 \/ List.length caps = 3).
Proof.
  unfold tag_suffix.
  destruct r as [|p [|a [|b [|c rest]]]]; try discriminate.
  destruct (is_char ")" p) eqn:Ep; [|discriminate].
  destruct (is_upper a) eqn:Ea; [|discriminate].
  destruct (is_upper b) eqn:Eb; [|discriminate]. cbn [andb].
  apply is_char_true in Ep. subst p.
  destruct (is_char "(" c) eqn:Ec.
  - intros [= <-]. apply is_char_true in Ec. subst c.
    exists [b; a]. split; [reflexivity|]. split; [|now left].
    now repeat constructor.
  - destruct rest as [|d rest']; [discriminate|].
    destruct (is_upper c) eqn:Ec'; [|discriminate].
    destruct (is_char "(" d) eqn:Ed; [|discriminate]. cbn [andb].
    intros [= <-]. apply is_char_true in Ed. subst d.
    exists [c; b; a]. split; [reflexivity|]. split; [|now right].
    now repeat constructor.
Qed.

(** White space behind a text neither creates nor hides a tag in front. *)
Lemma tag_suffix_app_spaces (x w : list char) :
  Forall (fun c => is_space c = true) w ->
  found (tag_suffix (x ++ w)) = found (tag_suffix x).
Proof.
  intros Hw.
  assert (Hhd : forall c t, w = c :: t ->
                  is_upper c = false /\ is_char "(" c = false /\ is_char ")" c = false).
  { intros c t ->. apply space_not_tag. now inversion Hw. }
  destruct x as [|p [|a [|b [|c [|d rest]]]]]; cbn [app tag_suffix].
  - destruct w as [|p [|a [|b [|c rest]]]]; try reflexivity.
    destruct (Hhd p _ eq_refl) as (_ & _ & Hp). unfold tag_suffix. now rewrite Hp.
  - destruct w as [|a [|b [|c rest]]]; try reflexivity.
    destruct (Hhd a _ eq_refl) as (Ha & _ & _). unfold tag_suffix.
    now rewrite Ha, andb_false_r.
  - destruct w as [|b [|c rest]]; try reflexivity.
    destruct (Hhd b _ eq_refl) as (Hb & _ & _). unfold tag_suffix.
    now rewrite Hb, andb_false_r.
  - destruct w as [|c rest]; try reflexivity.
    destruct (Hhd c _ eq_refl) as (Hc & Hc' & _). unfold tag_suffix.
    rewrite Hc, Hc'. destruct (_ && _); [|reflexivity].
    now destruct rest.
  - destruct (is_char ")" p && is_upper a && is_upper b); [|reflexivity].
    destruct (is_char "(" c); [reflexivity|].
    destruct w as [|d rest]; [reflexivity|].
    destruct (Hhd d _ eq_refl) as (_ & Hd & _). now rewrite Hd, andb_false_r.
  - destruct (is_char ")" p && is_upper a && is_upper b); [|reflexivity].
    destruct (is_char "(" c); [reflexivity|].
    now destruct (is_upper c && is_char "(" d).
Qed.

(** The tag is found after [strip] exactly when it is found before white
    space at the end of the raw name. *)
Lemma tag_found_after_strip (l : list char) :
  found (tag_suffix (lstrip_chars (rev (lstrip_chars l))))
  = found (tag_suffix (lstrip_chars (rev l))).
Proof.
  destruct (lstrip_split l) as (ws & E & Hws).
  destruct (lstrip_chars l) as [|h t] eqn:El.
  - rewrite app_nil_r in E. subst l.
    rewrite (lstrip_all_space (l := rev ws)); [reflexivity|].
    apply Forall_rev. exact Hws.
  - pose proof (lstrip_head _ El) as Hh.
    rewrite E, rev_app_distr.
    rewrite lstrip_app.
    + symmetry. apply tag_suffix_app_spaces. apply Forall_rev. exact Hws.
    + apply lstrip_keeps_nonspace with (h := h); [|exact Hh].
      apply -> in_rev. now left.
Qed.

(** What [strip] keeps is a segment of the characters of the text. *)
Lemma grouped_stripped (s : string) :
  grouped (rstrip_chars (lstrip_chars (characters s))).
Proof.
  destruct (lstrip_split (characters s)) as (ws & E & _).
  destruct (rstrip_split (lstrip_chars (characters s))) as (ws' & E' & _).
  pose proof (grouped_characters s) as H. rewrite E in H.
  apply grouped_app in H. destruct H as [_ H]. rewrite E' in H.
  apply grouped_app in H. tauto.
Qed.

Lemma characters_strip (s : string) :
  characters (strip s) = rstrip_chars (lstrip_chars (characters s)).
Proof. unfold strip. apply characters_join, grouped_stripped. Qed.

Lemma rev_strip (s : string) :
  rev (characters (strip s)) = lstrip_chars (rev (lstrip_chars (characters s))).
Proof. rewrite characters_strip. unfold rstrip_chars. apply rev_involutive. Qed.

Lemma lstrip_idem (l : list char) : lstrip_chars (lstrip_chars l) = lstrip_chars l.
Proof.
  destruct (lstrip_chars l) as [|h t] eqn:E; [reflexivity|].
  cbn. now rewrite (lstrip_head _ E).
Qed.

Lemma lstrip_fixed (l : list char) :
  lstrip_chars l = l <-> l = [] \/ exists h t, l = h :: t /\ is_space h = false.
Proof.
  split.
  - intros E. destruct l as [|h t]; [now left | right].
    exists h, t. split; [reflexivity|]. now apply (lstrip_head _ E).
  - intros [-> | (h & t & -> & Hh)]; cbn; [reflexivity | now rewrite Hh].
Qed.

(** Stripping on the right keeps the first character. *)
Lemma rstrip_keeps_head (h : char) (t : list char) :
  is_space h = false -> exists t', rstrip_chars (h :: t) = h :: t'.
Proof.
  intros Hh. unfold rstrip_chars. cbn [rev].
  assert (H : forall y, exists z, lstrip_chars (y ++ [h]) = z ++ [h]).
  { induction y as [|c r (z & IH)]; cbn [app lstrip_chars].
    - rewrite Hh. now exists [].
    - destruct (is_space c); [now exists z | now exists (c :: r)]. }
  destruct (H (rev t)) as (z & ->).
  rewrite rev_app_distr. cbn. now exists (rev z).
Qed.

(** [strip] leaves no white space at either end. *)
Lemma strip_stripped (s : string) :
  lstrip_chars (characters (strip s)) = characters (strip s)
  /\ lstrip_chars (rev (characters (strip s))) = rev (characters (strip s)).
Proof.
  split.
  - rewrite characters_strip.
    destruct (lstrip_chars (characters s)) as [|h t] eqn:E; [reflexivity|].
    destruct (rstrip_keeps_head h t (lstrip_head _ E)) as (t' & ->).
    cbn. now rewrite (lstrip_head _ E).
  - rewrite rev_strip. apply lstrip_idem.
Qed.

(** The stripped text, when it ends with a tag: what the cleaning keeps, the
    white space in front of the tag, and the tag. *)
Lemma stripped_with_tag (name : string) (before : list char) :
  tag_suffix (rev (characters (strip name))) = Some before ->
  exists ws caps,
    characters (strip name)
    = rev (lstrip_chars before) ++ ws ++ [["("%char]] ++ caps ++ [[")"%char]]
    /\ Forall (fun c => is_space c = true) ws
    /\ Forall (fun c => is_upper c = true) caps
    /\ (List.length caps = 2 \/ List.length caps = 3).
Proof.
  intros E. apply tag_suffix_split in E. destruct E as (caps & E & Hcaps & Hlen).
  destruct (lstrip_split before) as (ws & Eb & Hws).
  exists (rev ws), caps. split; [|split; [now apply Forall_rev | now split]].
  rewrite <- (rev_involutive (characters (strip name))), E.
  rewrite !rev_app_distr, rev_involutive. cbn [rev app].
  rewrite Eb at 1. rewrite rev_app_distr, <- !app_assoc. reflexivity.
Qed.

Lemma grouped_cleaned (name : string) (before : list char) :
  tag_suffix (rev (characters (strip name))) = Some before ->
  grouped (rev (lstrip_chars before)).
Proof.
  intros E. destruct (stripped_with_tag name E) as (ws & caps & Es & _).
  pose proof (grouped_characters (strip name)) as H. rewrite Es in H.
  apply grouped_app in H. tauto.
Qed.

(** X2.  The region flag and the cleaning agree: without the flag the cleaned
    name is the stripped name; with it, the stripped name is the cleaned name
    followed by white space, if any, and by a tag: an opening parenthesis,
    two or three capitals and a closing parenthesis. *)
Theorem region_flag_matches_cleaning :
  forall name : string,
    (has_region_identifier name = false -> clean_artist_name name = strip name)
    /\ (has_region_identifier name = true ->
        exists ws caps,
          characters (strip name)
          = characters (clean_artist_name name)
            ++ ws ++ [["("%char]] ++ caps ++ [[")"%char]]
          /\ Forall (fun c => is_space c = true) ws
          /\ Forall (fun c => is_upper c = true) caps
          /\ (List.length caps = 2 \/ List.length caps = 3)).
Proof.
  intros name. unfold has_region_identifier, clean_artist_name. cbv zeta.
  pose proof (tag_found_after_strip (characters name)) as H.
  rewrite <- rev_strip in H.
  destruct (tag_suffix (rev (characters (strip name)))) as [before|] eqn:E1;
    destruct (tag_suffix (lstrip_chars (rev (characters name)))) as [before'|] eqn:E2;
    cbn in H; try discriminate H; split; try discriminate.
  - intros _. rewrite (characters_join (grouped_cleaned name E1)).
    exact (stripped_with_tag name E1).
  - intros _. apply join_characters.
Qed.

(** X3.  The cleaned name has no white space at either end: stripping it
    again changes nothing. *)
Theorem clean_artist_name_is_stripped :
  forall name : string, strip (clean_artist_name name) = clean_artist_name name.
Proof.
  intros name.
  assert (Hfix : forall l, grouped l -> lstrip_chars l = l -> lstrip_chars (rev l) = rev l ->
                           strip (join l) = join l).
  { intros l Hg H1 H2. unfold strip, rstrip_chars.
    now rewrite (characters_join Hg), H1, H2, rev_involutive. }
  unfold clean_artist_name. cbv zeta.
  destruct (strip_stripped name) as [Hl Hr].
  destruct (tag_suffix (rev (characters (strip name)))) as [before|] eqn:E.
  - apply Hfix; [exact (grouped_cleaned name E) | | rewrite rev_involutive; apply lstrip_idem].
    destruct (stripped_with_tag name E) as (ws & caps & Es & _).
    apply lstrip_fixed.
    destruct (rev (lstrip_chars before)) as [|h t] eqn:Er; [now left | right].
    exists h, t. split; [reflexivity|].
    rewrite Es in Hl. cbn [app] in Hl. now apply (lstrip_head _ Hl).
  - rewrite join_characters.
    rewrite <- (join_characters (strip name)) at 1 2.
    apply Hfix; [apply grouped_characters | assumption | assumption].
Qed.

(** A no-break space (U+00A0) in front of the tag or behind it, and an
    ideographic space (U+3000) at the end of the name. *)
Definition nbsp : string := String "194" (String "160" "").
Definition ideographic_space : string := String "227" (String "128" (String "128" "")).

Example unicode_white_space :
  clean_artist_name (String.append "Artist" (String.append nbsp "(UK)")) = "Artist"
  /\ has_region_identifier (String.append "Artist (UK)" nbsp) = true
  /\ clean_artist_name (String.append "Artist (UK)" nbsp) = "Artist"
  /\ strip (String.append ideographic_space (String.append "Artist" ideographic_space))
     = "Artist".
Proof. repeat split; vm_compute; reflexivity. Qed.

End NameFacts.

(** ** Ties in [max], and what a lookup can answer *)

Module LookupFacts.
Import Text Utils Matcher Geo Spotify.

Section FirstMax.
Variables (A K : Type) (key : A -> K) (gtb : K -> K -> bool).
Variables (lt le : K -> K -> Prop).
Hypothesis le_lt_trans : forall a b c, le a b -> lt b c -> lt a c.
Hypothesis lt_le : forall a b, lt a b -> le a b.
Hypothesis gtb_true : forall a b, gtb a b = true -> lt b a.
Hypothesis gtb_false : forall a b, gtb a b = false -> le a b.

(** [max] answers the first of the elements of greatest key: what precedes
    it is strictly smaller, what follows is not greater. *)
Lemma max_from_first (l : list A) :
  forall seen best mid,
    (forall y, In y seen -> lt (key y) (key best)) ->
    (forall y, In y mid -> le (key y) (key best)) ->
    exists l1 l2,
      seen ++ best :: mid ++ l = l1 ++ Py.max_from key gtb best l :: l2
      /\ (forall y, In y l1 -> lt (key y) (key (Py.max_from key gtb best l)))
      /\ (forall y, In y l2 -> le (key y) (key (Py.max_from key gtb best l))).
Proof.
  induction l as [|x t IH]; intros seen best mid Hseen Hmid; cbn [Py.max_from].
  - exists seen, mid. rewrite app_nil_r. now split.
  - destruct (gtb (key x) (key best)) eqn:E.
    + apply gtb_true in E.
      destruct (IH (seen ++ best :: mid) x []) as (l1 & l2 & El & H1 & H2).
      * intros y Hy. apply in_app_or in Hy. destruct Hy as [Hy | [<- | Hy]].
        -- eapply le_lt_trans; [apply lt_le, Hseen, Hy | exact E].
        -- exact E.
        -- eapply le_lt_trans; [apply Hmid, Hy | exact E].
      * intros y [].
      * exists l1, l2. rewrite <- El, <- app_assoc. cbn. now split.
    + apply gtb_false in E.
      destruct (IH seen best (mid ++ [x])) as (l1 & l2 & El & H1 & H2).
      * exact Hseen.
      * intros y Hy. apply in_app_or in Hy. destruct Hy as [Hy | [<- | []]];
          [apply Hmid, Hy | exact E].
      * exists l1, l2. rewrite <- El, <- app_assoc. cbn. now split.
Qed.

Lemma max_first (l : list A) (m : A) :
  Py.max key gtb l = Some m ->
  exists l1 l2,
    l = l1 ++ m :: l2
    /\ (forall y, In y l1 -> lt (key y) (key m))
    /\ (forall y, In y l2 -> le (key y) (key m)).
Proof.
  destruct l as [|x t]; cbn; [discriminate|]. intros [= <-].
  destruct (max_from_first t [] (best := x) []) as (l1 & l2 & El & H);
    try (intros y []).
  exists l1, l2. now split.
Qed.
End FirstMax.

(** X5.  Ties go to the candidate the search lists first: the exact match
    answered has strictly more followers than the exact matches before it
    and at least as many as those after it; the approximate match answered
    has a strictly higher score than those before it and at least as high as
    those after it. *)
Theorem ties_go_to_the_first_candidate :
  forall (lower : string -> string) (ratio : string -> string -> Q)
         (original_name search_name : string)
         (has_region : bool) (artists : list artist),
    match find_best_match lower ratio original_name search_name has_region artists with
    | (Some best, true, _) =>
        exists l1 l2,
          exact_matches lower ratio original_name search_name has_region artists
          = l1 ++ best :: l2
          /\ (forall a, In a l1 -> (followers_total a < followers_total best)%Z)
          /\ (forall a, In a l2 -> (followers_total a <= followers_total best)%Z)
    | (Some best, false, s) =>
        exists l1 l2,
          approximate_matches lower ratio original_name search_name has_region artists
          = l1 ++ (best, s) :: l2
          /\ (forall a, In a l1 -> (snd a < s)%Q)
          /\ (forall a, In a l2 -> (snd a <= s)%Q)
    | (None, _, _) => True
    end.
Proof.
  intros lower ratio original_name search_name has_region artists.
  unfold find_best_match, exact_matches, approximate_matches.
  destruct (scan _ _ _ _ _) as [ex ap]. cbn [fst snd].
  destruct (Py.max followers_total Z.gtb ex) as [best|] eqn:Em.
  - apply (max_first followers_total Z.gtb Z.lt Z.le) in Em; [exact Em|..].
    + intros; lia.
    + intros; lia.
    + intros a b H. apply Z.gtb_lt in H. lia.
    + intros a b H. rewrite Z.gtb_ltb, Z.ltb_ge in H. exact H.
  - destruct (Py.max (@snd artist Q) Py.Qgtb ap) as [[best s]|] eqn:Ea; [|exact I].
    apply (max_first (@snd artist Q) Py.Qgtb Qlt Qle) in Ea; [exact Ea|..].
    + apply Qle_lt_trans.
    + apply Qlt_le_weak.
    + intros a b H. now apply PyFacts.Qgtb_true.
    + intros a b H. now apply PyFacts.Qgtb_false.
Qed.

(** The artist answered by [_find_best_match] is a candidate of the tier the
    flag names. *)
Lemma find_best_match_cases
      (lower : string -> string) (ratio : string -> string -> Q) (original_name search_name : string)
      (has_region : bool) (artists : list artist) (best : artist) (ex : bool) (s : Q) :
  find_best_match lower ratio original_name search_name has_region artists = (Some best, ex, s) ->
  In best artists
  /\ ((ex = true /\ s = 1%Q)
      \/ (ex = false /\ (threshold has_region < s)%Q)).
Proof.
  intros H. unfold find_best_match in H.
  destruct (scan lower ratio original_name search_name has_region artists) as [e a] eqn:Es.
  destruct (Py.max followers_total Z.gtb e) as [m|] eqn:Em.
  - injection H as -> <- <-.
    apply (PyFacts.max_spec followers_total Z.gtb (fun _ _ => True)) in Em; auto.
    destruct Em as [Hin _].
    assert (He : e = exact_matches lower ratio original_name search_name has_region artists)
      by (unfold exact_matches; now rewrite Es).
    rewrite He in Hin. apply MatcherFacts.in_exact_matches in Hin.
    split; [apply Hin | now left].
  - destruct (Py.max (@snd artist Q) Py.Qgtb a) as [[b q]|] eqn:Ea; [|discriminate].
    injection H as -> <- <-.
    apply (PyFacts.max_spec (@snd artist Q) Py.Qgtb (fun _ _ => True)) in Ea; auto.
    destruct Ea as [Hin _].
    assert (Ha : a = approximate_matches lower ratio original_name search_name has_region artists)
      by (unfold approximate_matches; now rewrite Es).
    rewrite Ha in Hin. apply MatcherFacts.in_approximate_matches in Hin.
    destruct Hin as (Hin & _ & _ & Hlt). split; [exact Hin | right; now split].
Qed.

(** X6.  A lookup that did not fail answers an exact match with score 1.0 or
    an approximate match whose score is strictly above the threshold of its
    tier (0.8 for a tagged name, 0.6 otherwise), and reports the region flag
    of the searched name; hence the score of a match for a tagged name is
    never below the skip threshold of 0.70. *)
Theorem matched_scores_clear_the_tier :
  forall (lower : string -> string) (ratio : string -> string -> Q) (service : api)
         (access_token : option string) (artist_name : string),
    let r := search_artist lower ratio service access_token artist_name in
    let thr := (if has_region_identifier artist_name then 8 # 10 else 6 # 10)%Q in
    (error r <> None
     \/ (exact_match r = Some true /\ Spotify.similarity_score r = Some 1%Q)
     \/ (exact_match r = Some false
         /\ exists s, Spotify.similarity_score r = Some s /\ (thr < s)%Q))
    /\ (uri r <> None ->
        had_region_identifier r = Some (has_region_identifier artist_name))
    /\ (has_region_identifier artist_name = true ->
        forall s, Spotify.similarity_score r = Some s -> (70 # 100 <= s)%Q).
Proof.
  intros lower ratio service access_token artist_name. cbv zeta.
  unfold search_artist.
  destruct access_token as [token|]; [|cbn; repeat split; try (left; discriminate); congruence].
  destruct (negb (nonempty token));
    [cbn; repeat split; try (left; discriminate); congruence|].
  destruct (search service (clean_artist_name artist_name)) as [e|body|[|a t]];
    try (cbn; repeat split; try (left; discriminate); congruence).
  destruct (find_best_match _ _ _ _ _) as [[[chosen|] ex] sim] eqn:Ef;
    [|cbn; repeat split; try (left; discriminate); congruence].
  apply find_best_match_cases in Ef. destruct Ef as (_ & Hcase).
  destruct (fst (get_artist_track service (artist_id chosen))) as [tr|];
    [|cbn; repeat split; try (left; discriminate); congruence].
  cbn [error exact_match Spotify.similarity_score uri had_region_identifier].
  split; [|split].
  - right. destruct Hcase as [[-> ->] | [-> Hlt]]; [left | right].
    + now split.
    + split; [reflexivity|]. exists sim. split; [reflexivity|]. exact Hlt.
  - reflexivity.
  - intros Hr s [= <-]. rewrite Hr in Hcase. cbn in Hcase.
    destruct Hcase as [[_ ->] | [_ Hlt]].
    + unfold Qle; cbn; lia.
    + apply Qlt_le_weak. eapply Qle_lt_trans; [|exact Hlt]. unfold Qle; cbn; lia.
Qed.

(** X7.  The catalog name a lookup reports is the name of one of the
    candidates that the search answered for the cleaned name. *)
Theorem found_artist_is_a_candidate :
  forall (lower : string -> string) (ratio : string -> string -> Q) (service : api)
         (access_token : option string) (artist_name : string),
    match found_artist (search_artist lower ratio service access_token artist_name) with
    | Some found =>
        exists artists a,
          search service (clean_artist_name artist_name) = Items artists
          /\ In a artists /\ Matcher.artist_name a = found
    | None => True
    end.
Proof.
  intros lower ratio service access_token artist_name. unfold search_artist.
  destruct access_token as [token|]; [|exact I].
  destruct (negb (nonempty token)); [exact I|].
  destruct (search service (clean_artist_name artist_name)) as [e|body|[|a t]] eqn:Es;
    try exact I.
  destruct (find_best_match _ _ _ _ _) as [[[chosen|] ex] sim] eqn:Ef; [|exact I].
  apply find_best_match_cases in Ef. destruct Ef as (Hin & _).
  destruct (fst (get_artist_track service (artist_id chosen))); cbn [found_artist];
    exists (a :: t), chosen; now repeat split.
Qed.

(** X8.  Track selection: the first top track is answered, flagged direct,
    whenever there is one; the flag is direct in that case only; without
    a top track the answer is the track reached through the first album and
    its first track, or nothing, flagged fallback. *)
Theorem track_selection_falls_back :
  forall (service : api) (artist_id : string),
    let answer := get_artist_track service artist_id in
    (forall t rest, top_tracks service artist_id = Some (t :: rest) ->
                    answer = (Some t, false))
    /\ (snd answer = false ->
        exists t rest, top_tracks service artist_id = Some (t :: rest))
    /\ (fst answer = None -> snd answer = true)
    /\ (forall t, answer = (Some t, true) ->
                  exists album rest track_id rest',
                    albums service artist_id = Some (album :: rest)
                    /\ album_tracks service album = Some (track_id :: rest')
                    /\ track_by_id service track_id = Some t).
Proof.
  intros service artist_id. cbv zeta. unfold get_artist_track.
  split; [|split; [|split]].
  - intros t rest ->. reflexivity.
  - destruct (top_tracks service artist_id) as [[|t rest]|]; cbn.
    2: { intros _. now exists t, rest. }
    all: destruct (albums service artist_id) as [[|al r]|]; cbn; try discriminate;
      destruct (album_tracks service al) as [[|tr r']|]; cbn; try discriminate;
      destruct (track_by_id service tr); cbn; discriminate.
  - destruct (top_tracks service artist_id) as [[|t rest]|]; cbn; try discriminate.
    all: destruct (albums service artist_id) as [[|al r]|]; cbn; try reflexivity;
      destruct (album_tracks service al) as [[|tr r']|]; cbn; try reflexivity;
      destruct (track_by_id service tr); cbn; reflexivity.
  - intros t.
    destruct (top_tracks service artist_id) as [[|t0 rest]|]; try discriminate.
    all: destruct (albums service artist_id) as [[|al r]|]; try discriminate;
      destruct (album_tracks service al) as [[|tr r']|] eqn:Ea; try discriminate;
      destruct (track_by_id service tr) eqn:Et; try discriminate;
      intros [= <-]; now exists al, r, tr, r'.
Qed.

End LookupFacts.

(** ** Pages, extracted records and the filter *)

Module StageFacts.
Import Text Geo Spotify Scraper Pipeline OrderFacts.

Section Stage.
Variable parse_float : string -> option Q.
Variable lib : datelib.
Variables (self_lat self_lon : value).

Let extract := extract_event_data parse_float lib self_lat self_lon.

Lemma contribution_length (el : element) :
  List.length (ScrapeFacts.contribution parse_float lib self_lat self_lon el)
  <= 6 * (if ScrapeFacts.festival_element el then 0 else 1).
Proof.
  destruct el as [e|]; cbn [ScrapeFacts.contribution ScrapeFacts.festival_element List.length];
    [|lia].
  destruct (is_festival e) eqn:E; cbn [List.length]; [lia|].
  destruct (read_event e); cbn [List.length]; [|lia].
  rewrite !length_map. unfold is_festival, FESTIVAL_PERFORMER_LIMIT in E.
  apply Nat.ltb_ge in E. lia.
Qed.

Lemma contributions_length (els : list element) :
  ScrapeFacts.festivals els <= List.length els
  /\ List.length (flat_map (ScrapeFacts.contribution parse_float lib self_lat self_lon) els)
     <= 6 * (List.length els - ScrapeFacts.festivals els).
Proof.
  unfold ScrapeFacts.festivals.
  induction els as [|el t [IH1 IH2]]; cbn [flat_map filter List.length]; [split; lia|].
  rewrite length_app. pose proof (contribution_length el) as Hc.
  destruct (ScrapeFacts.festival_element el); cbn [List.length]; split; lia.
Qed.

Lemma extract_fields (ev : event) (n : string) :
  event_date (extract ev n) = startDate ev
  /\ performer_name (extract ev n) = n
  /\ event_start_time (extract ev n)
     = (if nonempty (startDate ev) && contains "T" (startDate ev) then
          match fromisoformat lib (replace "Z" "+00:00" (startDate ev)) with
          | Some dt => strftime_HM lib dt
          | None => ""
          end
        else "")
  /\ distance_miles (extract ev n)
     = match location_geo (event_location ev) with
       | Some g => calculate_distance parse_float self_lat self_lon
                                      (geo_latitude g) (geo_longitude g)
       | None => calculate_distance parse_float self_lat self_lon (VStr "") (VStr "")
       end.
Proof.
  unfold extract, extract_event_data.
  destruct (location_geo (event_location ev)); cbn; repeat split; reflexivity.
Qed.
End Stage.

Lemma reached_of_blocks (bs : list json_block) :
  List.length (flat_map ScrapeFacts.block_reached bs)
  <= List.length (flat_map ScrapeFacts.block_events bs)
  /\ (Forall (fun el => ScrapeFacts.raises el = false) (flat_map ScrapeFacts.block_events bs) ->
      flat_map ScrapeFacts.block_reached bs = flat_map ScrapeFacts.block_events bs).
Proof.
  induction bs as [|b t [IH1 IH2]]; cbn [flat_map]; [split; [lia | reflexivity]|].
  rewrite !length_app. unfold ScrapeFacts.block_reached at 1 3.
  pose proof (ScrapeFacts.reached_length (ScrapeFacts.block_events b)) as Hlen.
  split; [lia|].
  intros H. apply Forall_app in H. destruct H as [Hb Ht].
  now rewrite (ScrapeFacts.reached_all Hb), (IH2 Ht).
Qed.

(** X9.  On every fetched page the festival count is at most the event
    count, and the page yields at most six performers for each counted event
    that is not a festival.  The events counted are the elements that the
    loops of the blocks get to, up to the first that raises in each block:
    at most the elements of the blocks that parse, and all of them when none
    raises. *)
Theorem page_yields_six_per_event_at_most :
  forall (parse_float : string -> option Q) (lib : datelib) (self_lat self_lon : value)
         (p : page),
    let answer := scrape_page parse_float lib self_lat self_lon (Some p) in
    let performers := fst (fst (fst answer)) in
    let event_count := snd (fst (fst answer)) in
    let festival_count := snd (fst answer) in
    let elements := flat_map ScrapeFacts.block_events (blocks p) in
    festival_count <= event_count
    /\ List.length performers <= 6 * (event_count - festival_count)
    /\ event_count
       = List.length (flat_map (fun b => ScrapeFacts.reached (ScrapeFacts.block_events b))
                               (blocks p))
    /\ event_count <= List.length elements
    /\ (Forall (fun el => ScrapeFacts.raises el = false) elements ->
        event_count = List.length elements).
Proof.
  intros parse_float lib self_lat self_lon p. cbv zeta.
  rewrite ScrapeFacts.scrape_page_eq. cbn [fst snd].
  destruct (contributions_length parse_float lib self_lat self_lon
              (flat_map ScrapeFacts.block_reached (blocks p))) as [H1 H2].
  destruct (reached_of_blocks (blocks p)) as [H3 H4].
  split; [exact H1|]. split; [exact H2|]. split; [reflexivity|]. split; [exact H3|].
  intros H. now rewrite (H4 H).
Qed.

(** X10.  An event whose location has no coordinates, or whose latitude or
    longitude is absent, null or empty, gets the unknown distance, whatever
    the origin. *)
Theorem no_coordinates_no_distance :
  forall (parse_float : string -> option Q) (lib : datelib) (self_lat self_lon : value)
         (ev : event) (performer : string),
    match location_geo (event_location ev) with
    | None => True
    | Some g => In (geo_latitude g) [VNone; VStr ""] \/ In (geo_longitude g) [VNone; VStr ""]
    end ->
    distance_miles (extract_event_data parse_float lib self_lat self_lon ev performer)
    = Unknown.
Proof.
  intros parse_float lib self_lat self_lon ev performer H.
  destruct (extract_fields parse_float lib self_lat self_lon ev performer)
    as (_ & _ & _ & ->).
  destruct (location_geo (event_location ev)) as [g|].
  - apply GeoFacts.calculate_distance_missing.
    destruct H as [[<- | [<- | []]] | [<- | [<- | []]]]; cbn; tauto.
  - apply GeoFacts.calculate_distance_missing. right. cbn. tauto.
Qed.

Lemma no_coordinates_no_distance_witness :
  distance_miles
    (extract_event_data (fun _ => None) Calendar.reference LAT LON
       (Event "Show" "2024-01-15T20:00:00" (Location "Hall" (Some (GeoCoordinates VNone (VNum 1))))
              (PerformerList [PerformerDict (Some "Act")])) "Act")
  = Unknown.
Proof. apply no_coordinates_no_distance. cbn. tauto. Defined.

(** X11.  For the records the extractor builds: an event whose start date
    has no ['T'] has no start time and is never dropped by the filter; when
    a start time is recorded the ISO parser accepted the date, so the
    instant of the show is computed from it without the fallback; and the
    filter drops the record exactly when that instant is strictly before the
    current time. *)
Theorem extracted_records_and_the_filter :
  forall (parse_float : string -> option Q) (lib : datelib) (self_lat self_lon : value)
         (ev : event) (performer : string) (current_time : Z),
    let row := extract_event_data parse_float lib self_lat self_lon ev performer in
    let zoned := fun dt => if tzinfo_is_None lib dt then localize lib dt
                           else astimezone lib dt in
    (contains "T" (startDate ev) = false ->
     event_start_time row = "" /\ has_show_started lib row current_time = false)
    /\ (event_start_time row <> "" ->
        exists dt,
          fromisoformat lib (replace "Z" "+00:00" (startDate ev)) = Some dt
          /\ event_start_time row = strftime_HM lib dt
          /\ event_datetime lib row = Some (zoned dt))
    /\ (has_show_started lib row current_time = true
        <-> event_start_time row <> ""
            /\ exists dt,
                 fromisoformat lib (replace "Z" "+00:00" (startDate ev)) = Some dt
                 /\ (zoned dt < current_time)%Z).
Proof.
  intros parse_float lib self_lat self_lon ev performer current_time. cbv zeta.
  destruct (extract_fields parse_float lib self_lat self_lon ev performer)
    as (Hd & _ & Hs & _).
  set (row := extract_event_data parse_float lib self_lat self_lon ev performer) in *.
  assert (Hknown : event_start_time row <> "" ->
            exists dt,
              fromisoformat lib (replace "Z" "+00:00" (startDate ev)) = Some dt
              /\ event_start_time row = strftime_HM lib dt
              /\ event_datetime lib row
                 = Some (if tzinfo_is_None lib dt then localize lib dt
                         else astimezone lib dt)).
  { intros Hne. rewrite Hs in Hne.
    destruct (nonempty (startDate ev) && contains "T" (startDate ev)) eqn:Ec;
      [|congruence].
    apply andb_true_iff in Ec. destruct Ec as [_ Ec].
    destruct (fromisoformat lib (replace "Z" "+00:00" (startDate ev))) as [dt|] eqn:Ef;
      [|congruence].
    exists dt. split; [reflexivity|]. split.
    - exact Hs.
    - unfold event_datetime. rewrite Hd, Ec, Ef. reflexivity. }
  split; [|split].
  - intros Hc. rewrite Hs, Hc, andb_false_r. split; [reflexivity|].
    unfold has_show_started. now rewrite Hs, Hc, andb_false_r.
  - exact Hknown.
  - rewrite ProcessFacts.has_show_started_true. split.
    + intros (Hne & t & Et & Hlt). split; [exact Hne|].
      destruct (Hknown Hne) as (dt & Ef & _ & Edt). exists dt. split; [exact Ef|].
      congruence.
    + intros (Hne & dt & Ef & Hlt). split; [exact Hne|].
      destruct (Hknown Hne) as (dt' & Ef' & _ & Edt).
      assert (dt' = dt) by congruence. subst dt'.
      eexists. split; [exact Edt | exact Hlt].
Qed.

(** X12.  A show that has started stays started: the answer of the filter is
    monotone in the current time, and at the very instant of the show it
    has not started yet. *)
Theorem started_shows_stay_started :
  forall (lib : datelib) (row : performer_record),
    (forall t t', (t <= t')%Z -> has_show_started lib row t = true ->
                  has_show_started lib row t' = true)
    /\ (forall t, event_datetime lib row = Some t -> has_show_started lib row t = false).
Proof.
  intros lib row. split.
  - intros t t' Hle H. apply ProcessFacts.has_show_started_true in H.
    apply ProcessFacts.has_show_started_true.
    destruct H as (Hne & s & Es & Hlt). split; [exact Hne|].
    exists s. split; [exact Es | lia].
  - intros t Et. unfold has_show_started. rewrite Et.
    destruct (negb _); [reflexivity|]. rewrite Z.gtb_ltb. apply Z.ltb_irrefl.
Qed.

End StageFacts.

(** ** The playlist *)

Module PlaylistFacts.
Import Text Geo Spotify Scraper Pipeline OrderFacts PipelineFacts.

(** *** What the lookup loop attaches to a result *)

Lemma find_own_record (data : list unique_performer) :
  NoDup (map unique_name data) ->
  forall p, In p data ->
            find (fun x => String.eqb (unique_name x) (unique_name p)) data = Some p.
Proof.
  induction data as [|x t IH]; cbn; [tauto|].
  intros Hnd p [<- | Hin].
  - now rewrite String.eqb_refl.
  - inversion Hnd as [|? ? Hx Ht]; subst.
    destruct (String.eqb (unique_name x) (unique_name p)) eqn:E.
    + apply String.eqb_eq in E. exfalso. apply Hx. rewrite E. now apply in_map.
    + now apply IH.
Qed.

(** X13.  Each result of the lookup loop over the deduplicated performers
    carries the venue and the distance of the performer it was looked up
    for. *)
Theorem results_carry_their_venue :
  forall (lib : datelib) (numpy : sorter) (current_time : Z) (snapshot_written : bool)
         (performers : list performer_record)
         (lower : string -> string) (ratio : string -> string -> Q) (service : api)
         (access_token : option string),
    let out := process_performers lib numpy performers current_time snapshot_written in
    map (fun r => (searched_artist r, Spotify.venue r, Spotify.distance_miles r))
        (lookup_all lower ratio service access_token out)
    = map (fun p => (unique_name p, Some (unique_venue p), Some (unique_distance p))) out.
Proof.
  intros lib numpy current_time snapshot_written performers lower ratio service access_token.
  cbv zeta.
  set (out := process_performers lib numpy performers current_time snapshot_written).
  assert (Hnd : NoDup (map unique_name out)).
  { unfold out. destruct snapshot_written.
    - rewrite DedupFacts.process_performers_eq, DedupFacts.names_of_groupby.
      apply increasing_NoDup, DedupFacts.group_keys_increasing.
    - destruct performers; constructor. }
  unfold lookup_all. rewrite !map_map. apply map_ext_in. intros p Hp.
  unfold lookup. cbn [searched_artist Spotify.venue Spotify.distance_miles].
  rewrite (find_own_record out Hnd p Hp).
  destruct (SpotifyFacts.search_artist_shape lower ratio service access_token (unique_name p))
    as (-> & _). reflexivity.
Qed.

(** *** The three loops on readable results *)

(** The line of a result in the listing. *)
Definition line_of (r : result) : string * string * option distance :=
  shown_line r (match found_artist r with Some a => a | None => "" end).

Definition uri_of (r : result) : string :=
  match uri r with Some u => u | None => "" end.

Lemma readable_included (r : result) :
  readable r -> included r = true ->
  exists a u, found_artist r = Some a /\ uri r = Some u.
Proof.
  intros Hr Hi. unfold included in Hi. apply andb_true_iff in Hi. destruct Hi as [He _].
  apply negb_true_iff, has_error_false in He.
  destruct (Hr He) as (s & u & x & f & _ & Hu & _ & Hf). now exists f, u.
Qed.

Lemma upcoming_shows_eq (rs : list result) :
  Forall readable rs ->
  upcoming_shows rs = Some (map line_of (filter included rs)).
Proof.
  induction 1 as [|r t Hr _ IH]; cbn [upcoming_shows filter map]; [reflexivity|].
  destruct (included r) eqn:Ei.
  - destruct (readable_included Hr Ei) as (a & u & Ea & _).
    unfold included in Ei. apply andb_true_iff in Ei. destruct Ei as [He Es].
    apply negb_true_iff in He. rewrite He.
    destruct (Spotify.similarity_score r) as [s|]; [|discriminate].
    rewrite Es, Ea, IH. cbn. unfold line_of. now rewrite Ea.
  - destruct (readable_cases Hr) as [E | (s & u & x & f & E & Es & _)];
      rewrite E; [exact IH|].
    rewrite Es. unfold included in Ei. rewrite E, Es in Ei. cbn in Ei.
    rewrite Ei. exact IH.
Qed.

Lemma fuzzy_details_eq (rs : list result) :
  Forall readable rs ->
  fuzzy_details rs = Some (filter (fun r => included r && negb (is_exact_result r)) rs).
Proof.
  induction 1 as [|r t Hr _ IH]; cbn [fuzzy_details filter]; [reflexivity|].
  destruct (readable_cases Hr) as [E | (s & u & x & f & E & Es & _ & Ex & Ef)].
  - assert (Hi : included r = false) by (unfold included; now rewrite E).
    now rewrite E, Hi.
  - unfold included, is_exact_result. rewrite E, Es, Ex. cbn [negb andb].
    destruct (Qle_bool SKIP_THRESHOLD s); cbn [negb andb]; [|exact IH].
    rewrite Ef. destruct x; cbn [negb]; [exact IH | now rewrite IH].
Qed.

Lemma uris_of_eq (rs : list result) :
  Forall readable rs -> uris_of rs = map uri_of (filter included rs).
Proof.
  unfold uris_of.
  induction 1 as [|r t Hr _ IH]; cbn [flat_map filter map]; [reflexivity|].
  destruct (included r) eqn:Ei; [|exact IH].
  destruct (readable_included Hr Ei) as (a & u & _ & Eu).
  cbn [map]. unfold uri_of at 1. rewrite Eu, IH. reflexivity.
Qed.

Lemma sorted_filter (A : Type) (R : A -> A -> Prop) (p : A -> bool) (l : list A) :
  StronglySorted R l -> StronglySorted R (filter p l).
Proof.
  induction 1 as [|x t Ht IH Hx]; cbn; [constructor|].
  destruct (p x); [|exact IH]. constructor; [exact IH|].
  rewrite Forall_forall in *. intros y Hy. apply filter_In in Hy. apply Hx, Hy.
Qed.

Lemma results_sorted_sorted (results : list result) :
  StronglySorted (fun r1 r2 => distance_leb (get_distance r1) (get_distance r2) = true)
                 (results_sorted results).
Proof.
  apply (PyFacts.sorted_sorted get_distance distance_leb
                               distance_leb_total distance_leb_trans).
Qed.

Lemma readable_sorted (results : list result) :
  Forall readable results -> Forall readable (results_sorted results).
Proof.
  intros H. rewrite Forall_forall in *. intros r Hr. apply H.
  apply (Permutation_in _ (results_sorted_perm results) Hr).
Qed.

(** The playlist of readable results, loop by loop. *)
Lemma create_playlist_eq (results : list result) :
  Forall readable results ->
  exists s,
    create_playlist results
    = Some (Playlist (map line_of (filter included (results_sorted results)))
                     (filter (fun r => included r && negb (is_exact_result r))
                             (results_sorted results))
                     (map uri_of (filter included (results_sorted results)))
                     s)
    /\ fuzzy s = count (fun r => included r && negb (is_exact_result r))
                       (results_sorted results).
Proof.
  intros H. pose proof (readable_sorted H) as Hs.
  unfold create_playlist.
  rewrite (upcoming_shows_eq Hs), (fuzzy_details_eq Hs), (approve_spec Hs).
  cbn [app]. rewrite (uris_of_eq Hs). eexists. split; reflexivity.
Qed.

(** X14.  For the results of the lookup loop, the listing of upcoming shows,
    the URIs added and the sorted results that are at or above the skip
    threshold correspond entry by entry, in ascending order of distance with
    unknown distances last; the listing of fuzzy matches has as many entries
    as the fuzzy counter says. *)
Theorem listing_and_playlist_by_proximity :
  forall (lower : string -> string) (ratio : string -> string -> Q) (service : api)
         (access_token : option string)
         (performers_data : list unique_performer),
    let results := lookup_all lower ratio service access_token performers_data in
    exists pl kept,
      create_playlist results = Some pl
      /\ kept = filter (fun r => match error r, Spotify.similarity_score r with
                                 | None, Some s => Qle_bool (70 # 100) s
                                 | _, _ => false
                                 end) (results_sorted results)
      /\ StronglySorted
           (fun r1 r2 => distance_leb (get_distance r1) (get_distance r2) = true) kept
      /\ map Some (approved_uris pl) = map uri kept
      /\ map (fun l => Some (fst (fst l))) (shown pl) = map found_artist kept
      /\ map snd (shown pl) = map Spotify.distance_miles kept
      /\ List.length (details pl) = fuzzy (counters pl)
      /\ Forall (fun r => exact_match r = Some false /\ In r kept) (details pl).
Proof.
  intros lower ratio service access_token performers_data. cbv zeta.
  set (results := lookup_all lower ratio service access_token performers_data).
  assert (Hr : Forall readable results) by apply lookup_all_readable.
  destruct (create_playlist_eq Hr) as (s & Hpl & Hf).
  assert (Hk : forall l,
             filter (fun r => match error r, Spotify.similarity_score r with
                              | None, Some s => Qle_bool (70 # 100) s
                              | _, _ => false
                              end) l = filter included l).
  { intros l. apply filter_ext. intros r. unfold included, has_error, SKIP_THRESHOLD.
    destruct (error r), (Spotify.similarity_score r); reflexivity. }
  eexists. eexists. split; [exact Hpl|]. split; [reflexivity|].
  rewrite Hk. cbn [approved_uris shown details counters].
  pose proof (readable_sorted Hr) as Hs.
  assert (Hin : forall r, In r (filter included (results_sorted results)) ->
                          exists a u, found_artist r = Some a /\ uri r = Some u).
  { intros r Hin. apply filter_In in Hin. destruct Hin as [Hin Hi].
    rewrite Forall_forall in Hs. exact (readable_included (Hs r Hin) Hi). }
  split; [|split; [|split; [|split; [|split]]]].
  - apply sorted_filter, results_sorted_sorted.
  - rewrite map_map. apply map_ext_in. intros r Hr'.
    destruct (Hin r Hr') as (a & u & _ & Eu). unfold uri_of. now rewrite Eu.
  - rewrite map_map. apply map_ext_in. intros r Hr'.
    destruct (Hin r Hr') as (a & u & Ea & _). unfold line_of, shown_line. cbn.
    now rewrite Ea.
  - rewrite map_map. apply map_ext. intros r. reflexivity.
  - now rewrite Hf.
  - apply Forall_forall. intros r Hr'. apply filter_In in Hr'.
    destruct Hr' as [Hr' Hc]. apply andb_true_iff in Hc. destruct Hc as [Hi Hx].
    split.
    + rewrite Forall_forall in Hs. specialize (Hs r Hr').
      apply andb_true_iff in Hi as Hi'. destruct Hi' as [He _].
      apply negb_true_iff, has_error_false in He.
      destruct (Hs He) as (? & ? & x & ? & _ & _ & Ex & _).
      unfold is_exact_result in Hx. rewrite Ex in *. now destruct x.
    + apply filter_In. now split.
Qed.

End PlaylistFacts.

(** ** Ties in the sorted results, and unreadable results *)

Module SortFacts.
Import Text Geo Spotify Scraper Pipeline OrderFacts PipelineFacts.

Section Stable.
Variables (A K : Type) (key : A -> K) (leb : K -> K -> bool).
Hypothesis leb_trans : forall a b c, leb a b = true -> leb b c = true -> leb a c = true.

(** The elements whose key is level with [k]. *)
Definition level (k : K) (x : A) : bool := leb (key x) k && leb k (key x).

Lemma insert_sorted_level (k : K) (x : A) (l : list A) :
  filter (level k) (Py.insert_sorted key leb x l)
  = filter (level k) (x :: l).
Proof.
  induction l as [|y t IH]; [reflexivity|].
  cbn [Py.insert_sorted]. destruct (leb (key x) (key y)) eqn:E; [reflexivity|].
  cbn [filter] in *. rewrite IH.
  destruct (level k x) eqn:Ex, (level k y) eqn:Ey; try reflexivity.
  exfalso. unfold level in Ex, Ey.
  apply andb_true_iff in Ex. apply andb_true_iff in Ey.
  destruct Ex as [Ex _]. destruct Ey as [_ Ey].
  assert (Hxy : leb (key x) (key y) = true) by (eapply leb_trans; eassumption).
  congruence.
Qed.

(** [sorted] is stable: elements of level keys keep their order. *)
Lemma sorted_stable (k : K) (l : list A) :
  filter (level k) (Py.sorted key leb l) = filter (level k) l.
Proof.
  induction l as [|x t IH]; [reflexivity|].
  cbn [Py.sorted fold_right]. fold (Py.sorted key leb t).
  rewrite insert_sorted_level. cbn [filter]. now rewrite IH.
Qed.
End Stable.

(** X15.  Sorting the results by distance is stable: the results at one and
    the same distance, the unknown distance included, are listed in the order
    in which they were looked up. *)
Theorem equal_distances_keep_lookup_order :
  forall (results : list result) (d : distance),
    filter (fun r => distance_leb (get_distance r) d && distance_leb d (get_distance r))
           (results_sorted results)
    = filter (fun r => distance_leb (get_distance r) d && distance_leb d (get_distance r))
             results.
Proof.
  intros results d.
  exact (sorted_stable get_distance distance_leb distance_leb_trans d results).
Qed.

End SortFacts.

(* ===================================================================== *)
(** ** SpotifyClient._add_tracks_to_playlist *)
(* ===================================================================== *)

Module Batches.

(** [range(start, stop, step)] for a positive [step]: [count] values from
    [start] on. *)
Fixpoint range_from (count start step : nat) : list nat :=
  match count with
  | 0 => []
  | S k => start :: range_from k (start + step) step
  end.

Definition range (start stop step : nat) : list nat :=
  range_from ((stop - start + step - 1) / step) start step.

(** [l[i:j]] for [i <= j] *)
Definition slice (A : Type) (l : list A) (i j : nat) : list A := firstn (j - i) (skipn i l).

Definition batch_size : nat := 100.

(** The batches of the loop, in order. *)
Definition batches (track_uris : list string) : list (list string) :=
  map (fun i => slice track_uris i (i + batch_size))
      (range 0 (List.length track_uris) batch_size).

(** The loop over the batches; [add] is [self.sp.playlist_add_items], which
    answers [false] when it raises.  The answer holds the batches that were
    added and tells whether the loop came to its end; the exception of a
    failed call is raised again and ends the loop. *)
Fixpoint send (add : list string -> bool) (bs : list (list string))
  : list (list string) * bool :=
  match bs with
  | [] => ([], true)
  | b :: rest =>
      if add b then let (sent, ok) := send add rest in (b :: sent, ok)
      else ([], false)
  end.

Definition add_tracks_to_playlist (add : list string -> bool) (track_uris : list string)
  : list (list string) * bool :=
  send add (batches track_uris).

End Batches.

Module BatchFacts.
Import Batches.

Lemma batches_from (k : nat) :
  forall (pre l : list string),
    k = (List.length l + 99) / 100 ->
    map (fun i => slice (pre ++ l) i (i + batch_size))
        (range_from k (List.length pre) batch_size)
    = map (fun j => firstn 100 (skipn (100 * j) l)) (seq 0 k).
Proof.
  induction k as [|k IH]; intros pre l Hk; [reflexivity|].
  cbn [range_from seq map]. f_equal.
  - unfold slice, batch_size.
    replace (List.length pre + 100 - List.length pre) with 100 by lia.
    rewrite skipn_app, skipn_all, Nat.sub_diag. reflexivity.
  - destruct (Nat.le_gt_cases 100 (List.length l)) as [Hlen | Hlen].
    + specialize (IH (pre ++ firstn 100 l) (skipn 100 l)).
      rewrite <- app_assoc, firstn_skipn, length_app, length_firstn, length_skipn in IH.
      replace (Nat.min 100 (List.length l)) with 100 in IH by lia.
      unfold batch_size in *. rewrite IH.
      * rewrite <- seq_shift, map_map. apply map_ext. intros j.
        rewrite skipn_skipn. do 2 f_equal. lia.
      * replace (List.length l + 99) with (List.length l - 100 + 99 + 1 * 100) in Hk by lia.
        rewrite Nat.div_add in Hk by lia. lia.
    + assert (k = 0).
      { assert (H : (List.length l + 99) / 100 < 2)
          by (apply Nat.Div0.div_lt_upper_bound; lia).
        lia. }
      subst k. reflexivity.
Qed.

Lemma batches_eq (l : list string) :
  batches l = map (fun j => firstn 100 (skipn (100 * j) l))
                  (seq 0 ((List.length l + 99) / 100)).
Proof.
  unfold batches, range, batch_size.
  replace (List.length l - 0 + 100 - 1) with (List.length l + 99) by lia.
  exact (batches_from [] l eq_refl).
Qed.

Lemma concat_chunks (k : nat) :
  forall l : list string,
    List.length l <= 100 * k ->
    List.concat (map (fun j => firstn 100 (skipn (100 * j) l)) (seq 0 k)) = l.
Proof.
  induction k as [|k IH]; intros l Hl.
  - destruct l; [reflexivity | cbn in Hl; lia].
  - cbn [seq map List.concat]. rewrite <- seq_shift, map_map.
    rewrite Nat.mul_0_r. cbn [skipn].
    transitivity (firstn 100 l ++ skipn 100 l); [|apply firstn_skipn]. f_equal.
    rewrite <- (IH (skipn 100 l)) by (rewrite length_skipn; lia).
    f_equal. apply map_ext. intros j. rewrite skipn_skipn. do 2 f_equal. lia.
Qed.

Lemma ceil_bounds (n : nat) :
  n <= 100 * ((n + 99) / 100) /\ forall j, j < (n + 99) / 100 -> 100 * j < n.
Proof.
  pose proof (Nat.div_mod_eq (n + 99) 100) as H.
  pose proof (Nat.mod_upper_bound (n + 99) 100) as Hm.
  split; [lia|]. intros j Hj. nia.
Qed.

Lemma batches_cover_the_uris_aux (l : list string) : List.concat (batches l) = l.
Proof.
  rewrite batches_eq. apply concat_chunks. apply ceil_bounds.
Qed.

(** X17.  The batches handed to the service are the URIs in order, cut into
    pieces of 100: put end to end they give back the list, none is empty,
    none has more than 100 URIs, all but the last have exactly 100, and
    there are as many as the length divided by 100, rounded up. *)
Theorem batches_cover_the_uris :
  forall track_uris : list string,
    List.concat (batches track_uris) = track_uris
    /\ Forall (fun b => 1 <= List.length b <= 100) (batches track_uris)
    /\ Forall (fun b => List.length b = 100) (removelast (batches track_uris))
    /\ List.length (batches track_uris) = (List.length track_uris + 99) / 100.
Proof.
  intros l. rewrite batches_eq.
  destruct (ceil_bounds (List.length l)) as [Hup Hlow].
  split; [|split; [|split]].
  - apply concat_chunks. exact Hup.
  - apply Forall_forall. intros b Hb. apply in_map_iff in Hb.
    destruct Hb as (j & <- & Hj). apply in_seq in Hj.
    rewrite length_firstn, length_skipn.
    specialize (Hlow j). lia.
  - generalize Hlow. generalize ((List.length l + 99) / 100). clear.
    intros k Hlow. destruct k as [|k]; [constructor|].
    replace (S k) with (k + 1) by lia.
    rewrite seq_app, map_app. cbn [seq map]. rewrite removelast_last.
    apply Forall_forall. intros b Hb. apply in_map_iff in Hb.
    destruct Hb as (j & <- & Hj). apply in_seq in Hj.
    rewrite length_firstn, length_skipn.
    assert (H1 : 100 * (j + 1) < List.length l) by (apply Hlow; lia). lia.
  - now rewrite length_map, length_seq.
Qed.

Lemma send_spec (add : list string -> bool) (bs : list (list string)) :
  exists rest,
    bs = fst (send add bs) ++ rest
    /\ Forall (fun b => add b = true) (fst (send add bs))
    /\ (snd (send add bs) = true -> rest = [])
    /\ (snd (send add bs) = false -> exists b t, rest = b :: t /\ add b = false).
Proof.
  induction bs as [|b t (rest & E & Hs & Ht & Hf)]; cbn [send].
  - exists []. repeat split; [constructor | discriminate].
  - destruct (add b) eqn:Eb.
    + destruct (send add t) as [sent ok]. cbn [fst snd] in *.
      exists rest. repeat split; [now rewrite E at 1 | now constructor | exact Ht | exact Hf].
    + exists (b :: t). cbn [fst snd]. repeat split; [constructor | discriminate|].
      intros _. now exists b, t.
Qed.

(** X18.  Whatever the service does, the batches added are the first batches
    of the list, each accepted by the service, so that the URIs added are a
    beginning of the list; the loop comes to its end exactly when the service
    accepts every batch, and then every URI was added; otherwise it stops at
    the first batch the service refuses. *)
Theorem added_uris_are_a_prefix :
  forall (add : list string -> bool) (track_uris : list string),
    let sent := fst (add_tracks_to_playlist add track_uris) in
    let finished := snd (add_tracks_to_playlist add track_uris) in
    exists rest,
      batches track_uris = sent ++ rest
      /\ track_uris = List.concat sent ++ List.concat rest
      /\ Forall (fun b => add b = true) sent
      /\ (finished = true <-> Forall (fun b => add b = true) (batches track_uris))
      /\ (finished = true -> List.concat sent = track_uris)
      /\ (finished = false -> exists b t, rest = b :: t /\ add b = false).
Proof.
  intros add l. cbv zeta. unfold add_tracks_to_playlist.
  destruct (send_spec add (batches l)) as (rest & E & Hs & Ht & Hf).
  pose proof (batches_cover_the_uris_aux l) as Hc.
  exists rest. split; [exact E|]. split; [|split; [exact Hs|split; [|split]]].
  - rewrite <- concat_app, <- E. now symmetry.
  - split.
    + intros H. rewrite E, (Ht H), app_nil_r. exact Hs.
    + intros H. destruct (snd (send add (batches l))) eqn:Eo; [reflexivity|].
      destruct (Hf eq_refl) as (b & t & -> & Hb).
      rewrite E in H. apply Forall_app in H. destruct H as [_ H].
      inversion H; subst. congruence.
  - intros H. rewrite <- Hc at 2. rewrite E at 2. now rewrite (Ht H), app_nil_r.
  - exact Hf.
Qed.

Example two_batches_and_a_bit :
  map (@List.length string) (batches (repeat "spotify:track:x" 250)) = [100; 100; 50]
  /\ batches [] = [].
Proof. split; vm_compute; reflexivity. Qed.

End BatchFacts.

(* ===================================================================== *)
(** ** The page walk of ConcertScraper.scrape_concerts *)
(* ===================================================================== *)

Module Walk.
Import Text Geo Scraper.

Section Loop.
Variable parse_float : string -> option Q.
Variable lib : datelib.
Variables (self_lat self_lon : value).
(** [requests.get(url)] followed by the parse of the page; [None] when any of
    it raises. *)
Variable fetch : string -> option page.

(** The loop [while url:], on [(performers, event_count, festival_count)];
    the URL is [None] once [_get_next_page_url] finds no link.  [fuel] bounds
    the number of turns; [None] is a loop that has not ended within it. *)
Fixpoint walk (fuel : nat) (url : option string) (st : page_state) : option page_state :=
  match url with
  | None => Some st
  | Some u =>
      match fuel with
      | 0 => None
      | S fuel' =>
          let '(performers_batch, events, festivals, soup) :=
            scrape_page parse_float lib self_lat self_lon (fetch u) in
          let '(performers, event_count, festival_count) := st in
          walk fuel' (get_next_page_url soup)
               (performers ++ performers_batch, event_count + events,
                festival_count + festivals)
      end
  end.

(** The pages the walk reads from a URL on: it ends at a page without link
    to a next page and at a page that cannot be fetched. *)
Inductive reads : option string -> list page -> Prop :=
| reads_done : reads None []
| reads_failed (u : string) : fetch u = None -> reads (Some u) []
| reads_page (u : string) (p : page) (ps : list page) :
    fetch u = Some p -> reads (get_next_page_url (Some p)) ps -> reads (Some u) (p :: ps).

(** The performers of a page, as [_scrape_page] extracts them. *)
Definition page_performers (p : page) : list performer_record :=
  fst (fst (fst (scrape_page parse_float lib self_lat self_lon (Some p)))).

Definition page_events (p : page) : nat :=
  snd (fst (fst (scrape_page parse_float lib self_lat self_lon (Some p)))).

Definition page_festivals (p : page) : nat :=
  snd (fst (scrape_page parse_float lib self_lat self_lon (Some p))).
End Loop.

End Walk.

Module WalkFacts.
Import Text Geo Scraper Walk.

Section Loop.
Variable parse_float : string -> option Q.
Variable lib : datelib.
Variables (self_lat self_lon : value).
Variable fetch : string -> option page.

Let run := walk parse_float lib self_lat self_lon fetch.

Lemma walk_reads (url : option string) (ps : list page) :
  reads fetch url ps ->
  forall fuel st,
    List.length ps < fuel ->
    run fuel url st
    = Some (fst (fst st) ++ flat_map (page_performers parse_float lib self_lat self_lon) ps,
            snd (fst st)
            + list_sum (map (page_events parse_float lib self_lat self_lon) ps),
            snd st
            + list_sum (map (page_festivals parse_float lib self_lat self_lon) ps)).
Proof.
  induction 1 as [|u Hu|u p ps Hu Hps IH]; intros fuel [[pf ec] fc] Hfuel.
  - destruct fuel; cbn; now rewrite app_nil_r, !Nat.add_0_r.
  - destruct fuel as [|fuel]; [cbn in Hfuel; lia|].
    cbn. rewrite Hu. cbn. destruct fuel; cbn; now rewrite app_nil_r, !Nat.add_0_r.
  - destruct fuel as [|fuel]; [cbn in Hfuel; lia|].
    unfold run. cbn [walk]. rewrite Hu.
    destruct (scrape_page parse_float lib self_lat self_lon (Some p))
      as [[[batch ev] fest] soup] eqn:Es.
    assert (Hsoup : soup = Some p) by (unfold scrape_page in Es; congruence).
    subst soup. fold run. rewrite IH by (cbn in Hfuel; lia).
    unfold page_performers, page_events, page_festivals.
    cbn [flat_map map list_sum fst snd]. rewrite Es. cbn [fst snd].
    rewrite <- app_assoc. unfold list_sum. cbn [fold_right]. apply f_equal.
    apply f_equal2; [apply f_equal2; [reflexivity|]|]; lia.
Qed.

(** More fuel does not change the answer of a walk that has ended. *)
Lemma walk_more_fuel (fuel : nat) :
  forall url st answer,
    run fuel url st = Some answer -> run (S fuel) url st = Some answer.
Proof.
  induction fuel as [|fuel IH]; intros [u|] [[pf ec] fc] answer; cbn; try congruence.
  destruct (scrape_page parse_float lib self_lat self_lon (fetch u))
    as [[[batch ev] fest] soup].
  intros H. apply IH in H. exact H.
Qed.
End Loop.

(** X19.  When the pages reachable from the first URL are finitely many, the
    walk ends once it has fuel for one turn more than their number, and it
    answers the performers of these pages in order, put end to end, and the
    sums of their event and festival counts; a page that cannot be fetched
    ends the walk and what was gathered before is kept. *)
Theorem walk_merges_the_pages :
  forall (parse_float : string -> option Q) (lib : datelib) (self_lat self_lon : value)
         (fetch : string -> option page) (url : string) (ps : list page) (fuel : nat),
    reads fetch (Some url) ps ->
    List.length ps < fuel ->
    walk parse_float lib self_lat self_lon fetch fuel (Some url) ([], 0, 0)
    = Some (flat_map (page_performers parse_float lib self_lat self_lon) ps,
            list_sum (map (page_events parse_float lib self_lat self_lon) ps),
            list_sum (map (page_festivals parse_float lib self_lat self_lon) ps)).
Proof.
  intros parse_float lib self_lat self_lon fetch url ps fuel Hr Hf.
  rewrite (walk_reads parse_float lib self_lat self_lon Hr) by exact Hf.
  reflexivity.
Qed.

(** Two pages: an event with three performers and a festival of eight, then
    an event with one performer and no link; a third URL that fails. *)
Definition act (n : string) : performer_entry := PerformerDict (Some n).

Definition first_page : page :=
  Page [Array (map ScrapeFacts.shaped
                 [Event "Night" "2024-01-15T20:00:00" (Location "Hall" None)
                        (PerformerList [act "Abe"; act "Bea"; act "Cy"]);
                  Event "Fest" "2024-01-15" (Location "Park" None)
                        (PerformerList (map act ["1"; "2"; "3"; "4"; "5"; "6"; "7"; "8"]))])]
       (Some "/page2").

Definition second_page : page :=
  Page [Object (ScrapeFacts.shaped
                  (Event "Late" "2024-01-15T22:00:00" (Location "Cellar" None)
                         (PerformerList [act "Bea"])))]
       None.

Definition two_pages (url : string) : option page :=
  if String.eqb url "https://www.songkick.com/start" then Some first_page
  else if String.eqb url "https://www.songkick.com/page2" then Some second_page
  else None.

Lemma two_pages_reads :
  reads two_pages (Some "https://www.songkick.com/start") [first_page; second_page].
Proof.
  apply reads_page; [reflexivity|]. cbn.
  apply reads_page; [reflexivity|]. cbn.
  apply reads_done.
Qed.

Lemma walk_merges_the_pages_witness :
  walk (fun _ => None) Calendar.reference LAT LON two_pages 3
       (Some "https://www.songkick.com/start") ([], 0, 0)
  = Some (flat_map (page_performers (fun _ => None) Calendar.reference LAT LON)
                   [first_page; second_page],
          list_sum (map (page_events (fun _ => None) Calendar.reference LAT LON)
                        [first_page; second_page]),
          list_sum (map (page_festivals (fun _ => None) Calendar.reference LAT LON)
                        [first_page; second_page])).
Proof.
  apply walk_merges_the_pages; [exact two_pages_reads | cbn; lia].
Defined.

Example two_pages_walk :
  option_map (fun st => (map performer_name (fst (fst st)), snd (fst st), snd st))
    (walk (fun _ => None) Calendar.reference LAT LON two_pages 3
          (Some "https://www.songkick.com/start") ([], 0, 0))
  = Some (["Abe"; "Bea"; "Cy"; "Bea"], 3, 1).
Proof. vm_compute. reflexivity. Qed.

(** X20.  The walk keeps no record of the pages it has read: when the link
    of a page leads back to the page itself, the loop does not end, however
    many turns it is given. *)
Theorem walk_does_not_end_on_a_cycle :
  forall (parse_float : string -> option Q) (lib : datelib) (self_lat self_lon : value)
         (fetch : string -> option page) (url : string) (p : page),
    fetch url = Some p ->
    get_next_page_url (Some p) = Some url ->
    forall fuel st,
      walk parse_float lib self_lat self_lon fetch fuel (Some url) st = None.
Proof.
  intros parse_float lib self_lat self_lon fetch url p Hf Hn fuel.
  induction fuel as [|fuel IH]; intros [[pf ec] fc]; [reflexivity|].
  cbn [walk]. rewrite Hf.
  destruct (scrape_page parse_float lib self_lat self_lon (Some p))
    as [[[batch ev] fest] soup] eqn:Es.
  assert (Hsoup : soup = Some p) by (unfold scrape_page in Es; congruence).
  subst soup. rewrite Hn. apply IH.
Qed.

Definition looping (url : string) : option page :=
  if String.eqb url "https://www.songkick.com/loop" then Some (Page [] (Some "/loop"))
  else None.

Lemma walk_does_not_end_on_a_cycle_witness :
  walk (fun _ => None) Calendar.reference LAT LON looping 1000
       (Some "https://www.songkick.com/loop") ([], 0, 0)
  = None.
Proof.
  apply walk_does_not_end_on_a_cycle with (p := Page [] (Some "/loop")); reflexivity.
Defined.

End WalkFacts.

(** ** A run without access token *)

Module TokenFacts.
Import Text Geo Spotify Scraper Pipeline PipelineFacts.

Lemma no_token_results (lower : string -> string) (ratio : string -> string -> Q) (service : api)
      (data : list unique_performer) :
  Forall (fun r => error r = Some "No access token")
         (lookup_all lower ratio service None data).
Proof.
  unfold lookup_all. apply Forall_forall. intros r Hr.
  apply in_map_iff in Hr. destruct Hr as (n & <- & _). reflexivity.
Qed.

Lemma all_errors_playlist (rs : list result) :
  Forall (fun r => has_error r = true) rs ->
  upcoming_shows rs = Some [] /\ fuzzy_details rs = Some []
  /\ forall st, approve rs st = Some st.
Proof.
  induction 1 as [|r t Hr _ (IH1 & IH2 & IH3)]; [now repeat split|].
  cbn [upcoming_shows fuzzy_details approve]. unfold approve_step.
  rewrite Hr. repeat split; try assumption.
  intros [uris s]. apply IH3.
Qed.

(** X21.  Without access token every lookup fails with the reason
    'No access token', and the playlist built from these results lists
    nothing, adds no URI and counts nothing as exact, fuzzy or skipped. *)
Theorem no_token_no_tracks :
  forall (lower : string -> string) (ratio : string -> string -> Q) (service : api)
         (performers_data : list unique_performer),
    let results := lookup_all lower ratio service None performers_data in
    Forall (fun r => error r = Some "No access token") results
    /\ errors results = List.length performers_data
    /\ create_playlist results = Some (Playlist [] [] [] (Stats 0 0 0)).
Proof.
  intros lower ratio service data. cbv zeta.
  pose proof (no_token_results lower ratio service data) as H.
  split; [exact H|]. split.
  - unfold errors. rewrite forallb_filter_id.
    + unfold lookup_all. now rewrite !length_map.
    + apply forallb_forall. rewrite Forall_forall in H. intros r Hr.
      unfold has_error. now rewrite (H r Hr).
  - assert (He : Forall (fun r => has_error r = true)
                        (results_sorted (lookup_all lower ratio service None data))).
    { rewrite Forall_forall in *. intros r Hr.
      apply (Permutation_in _ (results_sorted_perm _)) in Hr.
      unfold has_error. now rewrite (H r Hr). }
    destruct (all_errors_playlist He) as (H1 & H2 & H3).
    unfold create_playlist. now rewrite H1, H2, H3.
Qed.

End TokenFacts.

(** ** The two directions of a distance *)

Module GeoSelf.
Import Text Geo.

(** X23.  The distance does not depend on the order of the two points: the
    answer from A to B is the answer from B to A, be it a number of miles or
    the unknown distance. *)
Theorem distance_is_symmetric :
  forall (parse_float : string -> option Q) (lat1 lon1 lat2 lon2 : value),
    calculate_distance parse_float lat1 lon1 lat2 lon2
    = calculate_distance parse_float lat2 lon2 lat1 lon1.
Proof.
  intros parse_float a b c d. unfold calculate_distance.
  rewrite (GeoFacts.truthy_all_sym a b c d).
  destruct (negb (forallb truthy [c; d; a; b])); [reflexivity|].
  destruct (to_float parse_float a) as [x1|], (to_float parse_float b) as [y1|],
           (to_float parse_float c) as [x2|], (to_float parse_float d) as [y2|];
    try reflexivity.
  now rewrite (GeoFacts.haversine_sym x1 y1 x2 y2).
Qed.

End GeoSelf.
